(** * typyPRISM: the MatrixArray container and the NoIntra correlation

    A shallow embedding of [typyPRISM/MatrixArray.py] and
    [typyPRISM/omega/NoIntra.py].

    A MatrixArray instance is a Python object with four slots; its [data]
    slot refers to a numpy buffer that can be shared between instances and
    is mutated in place.  Both kinds of objects therefore live in an
    explicit heap, and every method is a state-passing computation that
    ends in a returned value or in a raised exception.

    Buffer entries are floats in the source.  They are taken here in an
    arbitrary field [F]: the statements below are about which cells are read
    and written, never about rounding. *)

From Stdlib Require Import String.
From Stdlib Require Ascii DecimalString DecimalNat DecimalFacts.
From HB Require Import structures.
From mathcomp Require Import ssreflect ssrfun ssrbool eqtype ssrnat seq div.
From mathcomp Require Import choice fintype finfun bigop binomial path.
From mathcomp Require Import ssralg ssrnum ssrint rat matrix.

Set Implicit Arguments.
Unset Strict Implicit.
Unset Printing Implicit Defensive.

Import GRing.Theory.
Local Open Scope ring_scope.

(** ** Exceptions and outcomes *)

Inductive exn : Type :=
  | AssertionError (msg : string)
  | IndexError
  | ValueError
  | LinAlgError.

Inductive outcome (A : Type) : Type :=
  | Return (a : A)
  | Raise (e : exn).

Arguments Return {A} a.
Arguments Raise {A} e.

Definition is_return (A : Type) (o : outcome A) : bool :=
  if o is Return _ then true else false.

(** ** The space tag *)

(** Modelled from the spec: [typyPRISM.Space] is imported by MatrixArray.py
    but its file is not part of the sources; the spec describes it as a
    two-valued enumeration [{Real, FourierLike}] compared by equality. *)
Inductive Space : Type := Real | FourierLike.

Definition Space_eqb (s t : Space) : bool :=
  match s, t with
  | Real, Real | FourierLike, FourierLike => true
  | _, _ => false
  end.

Definition Space_eqP : Equality.axiom Space_eqb.
Proof. by case; case; constructor. Defined.

HB.instance Definition _ := hasDecEq.Build Space Space_eqP.

Section TypyPRISM.

Variable F : fieldType.

(** ** numpy arrays *)

(** The buffer of a MatrixArray is documented as a 3D numpy array: a shape
    and the entry at each index triple.  Entries outside the shape carry no
    meaning. *)
Record ndarray : Type := NDArray {
  shape : nat * nat * nat;
  item : nat -> nat -> nat -> F
}.

(** [np.zeros((l, r, c))] *)
Definition zeros (s : nat * nat * nat) : ndarray :=
  NDArray s (fun _ _ _ => 0).

(** [np.copy(a)]: the same contents; the caller allocates them anew. *)
Definition copy (a : ndarray) : ndarray := a.

(** Two arrays hold the same data when their shapes agree and so do all
    entries inside the shape. *)
Definition same_array (a b : ndarray) : Prop :=
  shape a = shape b /\
  forall m i j, (m < (shape a).1.1)%N -> (i < (shape a).1.2)%N ->
                (j < (shape a).2)%N -> item a m i j = item b m i j.

(** A column [a[:, i, j]] is a 1D array, given by its entries. *)
Definition column (a : ndarray) (i j : nat) : outcome (seq F) :=
  let: (l, r, c) := shape a in
  if (i < r)%N && (j < c)%N
  then Return [seq item a m i j | m <- iota 0 l]
  else Raise IndexError.

(** Right-hand side of a column assignment: a scalar or a 1D sequence. *)
Inductive colvalue : Type :=
  | Scalar (x : F)
  | Seq (xs : seq F).

(** numpy broadcasting of a right-hand side to a 1D target of length [l] *)
Definition broadcast1 (l : nat) (v : colvalue) : option (nat -> F) :=
  match v with
  | Scalar x => Some (fun _ => x)
  | Seq xs =>
      if size xs == l then Some (nth 0 xs)
      else if size xs == 1%N then Some (fun _ => nth 0 xs 0%N)
      else None
  end.

(** What a right-hand side looks like once broadcast to length [l]. *)
Definition as_column (l : nat) (v : colvalue) : seq F :=
  match v with
  | Scalar x => nseq l x
  | Seq xs => if size xs == l then xs else nseq l (nth 0 xs 0%N)
  end.

(** [a[:, i, j] = v] *)
Definition set_column (a : ndarray) (i j : nat) (v : colvalue)
  : outcome ndarray :=
  let: (l, r, c) := shape a in
  if (i < r)%N && (j < c)%N then
    if broadcast1 l v is Some g then
      Return (NDArray (shape a)
                (fun m i' j' =>
                   if (i' == i) && (j' == j) then g m else item a m i' j'))
    else Raise ValueError
  else Raise IndexError.

(** Broadcasting of two 3D shapes, dimension by dimension. *)
Definition broadcast_dim (m n : nat) : option nat :=
  if m == n then Some m
  else if m == 1%N then Some n
  else if n == 1%N then Some m
  else None.

Definition broadcast_shape (s t : nat * nat * nat)
  : option (nat * nat * nat) :=
  let: (s0, s1, s2) := s in
  let: (t0, t1, t2) := t in
  if broadcast_dim s0 t0 is Some d0 then
    if broadcast_dim s1 t1 is Some d1 then
      if broadcast_dim s2 t2 is Some d2 then Some (d0, d1, d2)
      else None
    else None
  else None.

Definition broadcast_index (d i : nat) : nat := if d == 1%N then 0%N else i.

Definition broadcast_item (a : ndarray) (m i j : nat) : F :=
  let: (s0, s1, s2) := shape a in
  item a (broadcast_index s0 m) (broadcast_index s1 i) (broadcast_index s2 j).

(** The entries of [a op b], for an elementwise operator [op]. *)
Definition elementwise (op : F -> F -> F) (a b : ndarray)
  : nat -> nat -> nat -> F :=
  fun m i j => op (broadcast_item a m i j) (broadcast_item b m i j).

(** [a op b]: a new array of the broadcast shape. *)
Definition ufunc (op : F -> F -> F) (a b : ndarray) : outcome ndarray :=
  if broadcast_shape (shape a) (shape b) is Some s
  then Return (NDArray s (elementwise op a b))
  else Raise ValueError.

(** [a op= b]: the result is written into [a], so the broadcast shape has
    to be the shape of [a].  Buffers and operands all hold entries of the
    one type [F] (floats in the source), so the cast of the result back
    into [a], which numpy refuses between some other pairs of types, does
    not arise. *)
Definition ufunc_inplace (op : F -> F -> F) (a b : ndarray)
  : outcome ndarray :=
  if broadcast_shape (shape a) (shape b) == Some (shape a)
  then Return (NDArray (shape a) (elementwise op a b))
  else Raise ValueError.

(** [a op x] and [a op= x] for a Python scalar [x] *)
Definition ufunc_scalar (op : F -> F -> F) (a : ndarray) (x : F) : ndarray :=
  NDArray (shape a) (fun m i j => op (item a m i j) x).

(** A 2D array: one matrix of the stack. *)
Record ndarray2 : Type := NDArray2 {
  shape2 : nat * nat;
  item2 : nat -> nat -> F
}.

(** [a[m]] *)
Definition getslice (a : ndarray) (m : nat) : outcome ndarray2 :=
  let: (l, r, c) := shape a in
  if (m < l)%N then Return (NDArray2 (r, c) (item a m)) else Raise IndexError.

(** [a[m] = x], for [x] of the shape of the slice *)
Definition setslice (a : ndarray) (m : nat) (x : ndarray2)
  : outcome ndarray :=
  let: (l, r, c) := shape a in
  if (m < l)%N then
    if shape2 x == (r, c) then
      Return (NDArray (shape a)
                (fun m' => if m' == m then item2 x else item a m'))
    else Raise ValueError
  else Raise IndexError.

(** Passage between index functions and MathComp matrices. *)
Definition mx_of (n : nat) (f : nat -> nat -> F) : 'M[F]_n :=
  \matrix_(i, j) f i j.

Definition fun_of_mx (n : nat) (A : 'M[F]_n) (i j : nat) : F :=
  if insub i is Some i' then
    if insub j is Some j' then A i' j' else 0
  else 0.

(** [np.linalg.inv(x)] in exact arithmetic: the inverse of a square,
    non-singular matrix; anything else raises [LinAlgError].  The
    floating-point routine raises when its elimination meets a pivot that is
    exactly zero, so after rounding it can return on a singular matrix; the
    statements below that depend on which matrices are refused are stated
    on the outcome of this function. *)
Definition linalg_inv (x : ndarray2) : outcome ndarray2 :=
  let: (r, c) := shape2 x in
  if r == c then
    if mx_of r (item2 x) \in unitmx
    then Return (NDArray2 (r, r) (fun_of_mx (invmx (mx_of r (item2 x)))))
    else Raise LinAlgError
  else Raise LinAlgError.

(** A dimension of size [d] that broadcasting brought to size [d0] is read
    at the index asked for when it was not stretched, and at its only index
    when it was. *)
Definition stretch (d d0 i : nat) : nat := if d == d0 then i else 0%N.

(** [np.einsum('lij,ljk->lik', a, b)]: the matrix product of slice [l] of
    [a] with slice [l] of [b].  The two dimensions labelled [l] and the two
    labelled [j] have to agree up to broadcasting: a dimension of size 1 is
    stretched to the other one, anything else is a [ValueError]. *)
Definition einsum_lij_ljk (a b : ndarray) : outcome ndarray :=
  let: (l, i, j) := shape a in
  let: (l', j', k) := shape b in
  if broadcast_dim l l' is Some l0 then
    if broadcast_dim j j' is Some j0 then
      Return (NDArray (l0, i, k)
                (fun m p q =>
                   \sum_(0 <= t < j0)
                      item a (stretch l l0 m) p (stretch j j0 t) *
                      item b (stretch l' l0 m) (stretch j' j0 t) q))
    else Raise ValueError
  else Raise ValueError.

(** ** The heap: MatrixArray instances and numpy buffers *)

Definition ref : Type := nat.
Definition loc : Type := nat.

(** [__slots__ = ('rank','length','data','space')] *)
Record MatrixArray : Type := Instance {
  rank : nat;
  length : nat;
  data : loc;
  space : Space
}.

Record heap : Type := Heap {
  objs : seq MatrixArray;
  arrs : seq ndarray
}.

Definition no_instance : MatrixArray := Instance 0 0 0 Real.
Definition no_array : ndarray := zeros (0%N, 0%N, 0%N).

Definition instance (h : heap) (a : ref) : MatrixArray :=
  nth no_instance (objs h) a.

Definition array (h : heap) (l : loc) : ndarray := nth no_array (arrs h) l.

(** The buffer an instance currently refers to. *)
Definition buffer (h : heap) (a : ref) : ndarray :=
  array h (data (instance h a)).

(** [s[n] = x] on an existing position; other positions do not exist on
    the heap and are never written. *)
Fixpoint update (T : Type) (s : seq T) (n : nat) (x : T) : seq T :=
  match s, n with
  | [::], _ => [::]
  | _ :: s', 0%N => x :: s'
  | y :: s', n'.+1 => y :: update s' n' x
  end.

(** Computations on the heap that return or raise. *)
Definition M (A : Type) : Type := heap -> outcome A * heap.

Definition ret (A : Type) (a : A) : M A := fun h => (Return a, h).

Definition raise (A : Type) (e : exn) : M A := fun h => (Raise e, h).

Arguments raise {A} e.

Definition bind (A B : Type) (m : M A) (k : A -> M B) : M B :=
  fun h =>
    match m h with
    | (Return a, h') => k a h'
    | (Raise e, h') => (Raise e, h')
    end.

Notation "x <-- m ;; k" := (bind m (fun x => k))
  (at level 61, m at next level, right associativity).
Notation "m ;; k" := (bind m (fun _ => k))
  (at level 61, right associativity).

(** The outcome of a numpy primitive, in the current heap. *)
Definition lift (A : Type) (o : outcome A) : M A := fun h => (o, h).

(** [assert b, msg], with assertions enabled (no [-O]) *)
Definition assert (b : bool) (msg : string) : M unit :=
  if b then ret tt else raise (AssertionError msg).

(** Reading the slots of an instance, and the contents of a buffer. *)
Definition getattr (a : ref) : M MatrixArray :=
  fun h => (Return (instance h a), h).

Definition read (l : loc) : M ndarray := fun h => (Return (array h l), h).

(** Overwriting the contents of a buffer in place. *)
Definition write (l : loc) (x : ndarray) : M unit :=
  fun h => (Return tt, Heap (objs h) (update (arrs h) l x)).

(** A new numpy array. *)
Definition alloc (x : ndarray) : M loc :=
  fun h => (Return (size (arrs h)), Heap (objs h) (rcons (arrs h) x)).

(** A new instance. *)
Definition new (o : MatrixArray) : M ref :=
  fun h => (Return (size (objs h)), Heap (rcons (objs h) o) (arrs h)).

(** [self.data = l]: the slot now refers to another buffer. *)
Definition set_data (a : ref) (l : loc) : M unit :=
  fun h =>
    let o := instance h a in
    (Return tt,
     Heap (update (objs h) a (Instance (rank o) (length o) l (space o)))
          (arrs h)).

(** [for i in s: body(i)] *)
Fixpoint for_each (s : seq nat) (body : nat -> M unit) : M unit :=
  if s is i :: s' then body i ;; for_each s' body else ret tt.

(** A generator running over [s]: what it yields, in order, when it is
    consumed to its end. *)
Fixpoint for_yield (A T : Type) (s : seq A) (body : A -> M (seq T))
  : M (seq T) :=
  if s is x :: s' then
    ys <-- body x ;; zs <-- for_yield s' body ;; ret (ys ++ zs)
  else ret [::].

(** [range(n)] and [itertools.product] *)
Definition range (n : nat) : seq nat := iota 0 n.

Definition product (s t : seq nat) : seq (nat * nat) :=
  [seq (i, j) | i <- s, j <- t].

(** ** MatrixArray *)

Definition SpaceError : string :=
  "Attempting MatrixArray math in non-matching spaces".

Definition __init__ (length rank : nat) (data : option loc)
  (space : option Space) : M ref :=
  d <-- (if data is Some d then ret d
        else alloc (zeros (length, rank, rank))) ;;
  new (Instance rank length d (if space is Some s then s else Real)).

Definition itercolumn (self : ref) : M (seq (nat * nat * seq F)) :=
  o <-- getattr self ;;
  for_yield (product (range (rank o)) (range (rank o)))
    (fun ij =>
       let: (i, j) := ij in
       if (i <= j)%N then
         o' <-- getattr self ;;
         a <-- read (data o') ;;
         c <-- lift (column a i j) ;;
         ret [:: ((i, j), c)]
       else ret [::]).

(** [self.data[:, i, j] = val] on the buffer at [l] *)
Definition assign_column (l : loc) (i j : nat) (val : colvalue) : M unit :=
  a <-- read l ;;
  a' <-- lift (set_column a i j val) ;;
  write l a'.

Definition __setitem__ (self : ref) (key : nat * nat) (val : colvalue)
  : M unit :=
  let: (type1, type2) := key in
  o <-- getattr self ;;
  assign_column (data o) type1 type2 val ;;
  if ~~ (type1 == type2) then
    o' <-- getattr self ;;
    assign_column (data o') type2 type1 val
  else ret tt.

Definition __getitem__ (self : ref) (key : nat * nat) : M (seq F) :=
  let: (type1, type2) := key in
  o <-- getattr self ;;
  a <-- read (data o) ;;
  lift (column a type1 type2).

(** The right operand of an arithmetic operator: a MatrixArray, a Python
    scalar, or a numpy array of at most three dimensions (given with its
    shape padded with ones on the left, as broadcasting does).  Such an
    array is only read, so it is passed by its contents. *)
Inductive operand : Type :=
  | OfMatrixArray (other : ref)
  | OfScalar (x : F)
  | OfArray (x : ndarray).

(** The eight arithmetic methods are the same text up to the operator:
    [binary_op op] is the non-mutating method, [inplace_op op] the mutating
    one.  [self.data op= y] updates the buffer where it is and stores it back
    in the slot it came from.  Division is the division of [F]; what it gives
    for a zero divisor plays no role below. *)
Definition binary_op (op : F -> F -> F) (self : ref) (other : operand)
  : M ref :=
  o <-- getattr self ;;
  d <-- match other with
       | OfMatrixArray b =>
           ob <-- getattr b ;;
           assert (space o == space ob) SpaceError ;;
           x <-- read (data o) ;;
           y <-- read (data ob) ;;
           z <-- lift (ufunc op x y) ;;
           alloc z
       | OfScalar c =>
           x <-- read (data o) ;;
           alloc (ufunc_scalar op x c)
       | OfArray y =>
           x <-- read (data o) ;;
           z <-- lift (ufunc op x y) ;;
           alloc z
       end ;;
  __init__ (length o) (rank o) (Some d) (Some (space o)).

Definition inplace_op (op : F -> F -> F) (self : ref) (other : operand)
  : M ref :=
  o <-- getattr self ;;
  match other with
  | OfMatrixArray b =>
      ob <-- getattr b ;;
      assert (space o == space ob) SpaceError ;;
      x <-- read (data o) ;;
      y <-- read (data ob) ;;
      z <-- lift (ufunc_inplace op x y) ;;
      write (data o) z
  | OfScalar c =>
      x <-- read (data o) ;;
      write (data o) (ufunc_scalar op x c)
  | OfArray y =>
      x <-- read (data o) ;;
      z <-- lift (ufunc_inplace op x y) ;;
      write (data o) z
  end ;;
  ret self.

Definition __truediv__ : ref -> operand -> M ref :=
  binary_op (fun x y => x / y).
Definition __itruediv__ : ref -> operand -> M ref :=
  inplace_op (fun x y => x / y).
Definition __mul__ : ref -> operand -> M ref := binary_op *%R.
Definition __imul__ : ref -> operand -> M ref := inplace_op *%R.
Definition __add__ : ref -> operand -> M ref := binary_op +%R.
Definition __iadd__ : ref -> operand -> M ref := inplace_op +%R.
Definition __sub__ : ref -> operand -> M ref := binary_op (fun x y => x - y).
Definition __isub__ : ref -> operand -> M ref := inplace_op (fun x y => x - y).

(** [data[i] = np.linalg.inv(self.data[i])], for the local [data] at [d] *)
Definition invert_slice (self : ref) (d : loc) (i : nat) : M unit :=
  o <-- getattr self ;;
  x <-- read (data o) ;;
  s <-- lift (getslice x i) ;;
  s' <-- lift (linalg_inv s) ;;
  y <-- read d ;;
  y' <-- lift (setslice y i s') ;;
  write d y'.

Definition invert (self : ref) (inplace : bool) : M ref :=
  o <-- getattr self ;;
  d <-- (if inplace then ret (data o)
        else x <-- read (data o) ;; alloc (copy x)) ;;
  for_each (range (length o)) (invert_slice self d) ;;
  if inplace then ret self
  else __init__ (length o) (rank o) (Some d) (Some (space o)).

Definition dot (self other : ref) (inplace : bool) : M ref :=
  o <-- getattr self ;;
  ob <-- getattr other ;;
  x <-- read (data o) ;;
  y <-- read (data ob) ;;
  z <-- lift (einsum_lij_ljk x y) ;;
  d <-- alloc z ;;
  if inplace then set_data self d ;; ret self
  else __init__ (length o) (rank o) (Some d) (Some (space o)).

Definition __matmul__ (self other : ref) : M ref :=
  o <-- getattr self ;;
  ob <-- getattr other ;;
  assert (space o == space ob) SpaceError ;;
  dot self other false.

Definition __imatmul__ (self other : ref) : M ref :=
  o <-- getattr self ;;
  ob <-- getattr other ;;
  assert (space o == space ob) SpaceError ;;
  dot self other true.

(** ** Notions used in the statements *)

(** The index pairs of the upper triangle, in the order in which
    [itertools.product] enumerates them. *)
Definition upper (r : nat) : seq (nat * nat) :=
  [seq ij <- product (range r) (range r) | (ij.1 <= ij.2)%N].

(** Row-major order on index pairs. *)
Definition row_major : rel (nat * nat) :=
  fun p q => (p.1 < q.1)%N || (p.1 == q.1) && (p.2 < q.2)%N.

(** The four arithmetic operators and the methods that implement them. *)
Inductive arith : Type := Add | Sub | Mul | Truediv.

Definition method (o : arith) : ref -> operand -> M ref :=
  match o with
  | Add => __add__
  | Sub => __sub__
  | Mul => __mul__
  | Truediv => __truediv__
  end.

Definition imethod (o : arith) : ref -> operand -> M ref :=
  match o with
  | Add => __iadd__
  | Sub => __isub__
  | Mul => __imul__
  | Truediv => __itruediv__
  end.

(** The inverse of slice [m] of a stack of [r] by [r] matrices. *)
Definition inverse_of (x : ndarray) (r m : nat) : nat -> nat -> F :=
  fun_of_mx (invmx (mx_of r (item x m))).

(** The rank, length and space slots of an instance. *)
Definition tags (o : MatrixArray) : nat * nat * Space :=
  (rank o, length o, space o).

(** An operand that the in-place form accepts: it broadcasts to the shape
    of the buffer it is combined with, and a MatrixArray operand moreover
    has the space of the left operand. *)
Definition broadcasts_to (s t : nat * nat * nat) : bool :=
  broadcast_shape s t == Some s.

Definition valid_operand (h : heap) (a : ref) (other : operand) : bool :=
  match other with
  | OfMatrixArray b =>
      (space (instance h a) == space (instance h b)) &&
      broadcasts_to (shape (buffer h a)) (shape (buffer h b))
  | OfScalar _ => true
  | OfArray y => broadcasts_to (shape (buffer h a)) (shape y)
  end.

(** What it means for a method called on [a] to return a new instance that
    owns a new buffer: the call has allocated exactly one instance and one
    array, the result is that instance and its [data] slot refers to that
    array; the instance has the tags of [a]; everything that existed is as it
    was; the new buffer is a cell of its own, so that a write to it is read
    back through the result; and later writes to either side do not reach
    the other. *)
Definition fresh_result (a : ref) (m : M ref) : Prop :=
  forall (h h' : heap) (c : ref),
    m h = (Return c, h') ->
    [/\ [/\ c = size (objs h), size (objs h') = (size (objs h)).+1,
            data (instance h' c) = size (arrs h)
          & size (arrs h') = (size (arrs h)).+1],
        tags (instance h' c) = tags (instance h a),
        (forall x, (x < size (objs h))%N -> instance h' x = instance h x) /\
        (forall l, (l < size (arrs h))%N -> array h' l = array h l),
        forall z : ndarray,
          buffer (write (data (instance h' c)) z h').2 c = z
      & forall (l : loc) (z : ndarray), (l < size (arrs h))%N ->
          array (write (data (instance h' c)) z h').2 l = array h l /\
          buffer (write l z h').2 c = buffer h' c].

(** A computation that leaves the tags of every existing instance alone. *)
Definition keeps_tags (A : Type) (m : M A) : Prop :=
  forall h : heap,
    (size (objs h) <= size (objs (m h).2))%N /\
    forall x : ref, (x < size (objs h))%N ->
      tags (instance (m h).2 x) = tags (instance h x).

(** ** NoIntra *)

(** The wavenumber array [k] can have any number of dimensions. *)
Record ndarrayN : Type := NDArrayN {
  shapeN : seq nat;
  itemN : seq nat -> F
}.

(** [np.zeros_like(k)] *)
Definition zeros_like (k : ndarrayN) : ndarrayN :=
  NDArrayN (shapeN k) (fun _ => 0).

(** A NoIntra instance has one attribute, [value], unset until the first
    call of [calculate]; [store] holds the arrays it can refer to. *)
Record NoIntra : Type := NoIntraState {
  value : option loc;
  store : seq ndarrayN
}.

Definition arrayN (self : NoIntra) (l : loc) : ndarrayN :=
  nth (NDArrayN [::] (fun _ => 0)) (store self) l.

(** [self.value = np.zeros_like(k); return self.value] *)
Definition calculate (self : NoIntra) (k : ndarrayN) : loc * NoIntra :=
  let l := size (store self) in
  let self' := NoIntraState (Some l) (rcons (store self) (zeros_like k)) in
  (odflt l (value self'), self').

(** ** MatrixArray: the textual representation *)

(** ['{:d}'.format(n)] for a natural number: its decimal digits. *)
Definition format_d (n : nat) : string :=
  DecimalString.NilZero.string_of_uint (Nat.to_uint n).

Definition __repr__ (self : ref) : M string :=
  o <-- getattr self ;;
  ret (String.append "<MatrixArray rank:"
         (String.append (format_d (rank o))
            (String.append " length:"
               (String.append (format_d (length o)) ">")))).

(** ** Further notions used in the statements *)

(** [np.linalg.inv(x[m])]: what one round of the loop of [invert] computes
    before it writes. *)
Definition inv_slice (x : ndarray) (m : nat) : outcome ndarray2 :=
  match getslice x m with
  | Return s => linalg_inv s
  | Raise e => Raise e
  end.

(** Strings of decimal digits. *)
Definition digit (c : Ascii.ascii) : bool :=
  (48 <= Ascii.nat_of_ascii c)%N && (Ascii.nat_of_ascii c <= 57)%N.

Fixpoint digits (s : string) : bool :=
  if s is String c s' then digit c && digits s' else true.

(** The operation of the field behind each arithmetic operator. *)
Definition operation (o : arith) : F -> F -> F :=
  match o with
  | Add => +%R
  | Sub => fun x y => x - y
  | Mul => *%R
  | Truediv => fun x y => x / y
  end.


(** Every matrix of a stack is symmetric. *)
Definition symmetric (x : ndarray) : Prop :=
  forall m i j,
    (m < (shape x).1.1)%N -> (i < (shape x).1.2)%N -> (j < (shape x).1.2)%N ->
    item x m i j = item x m j i.

(** The entries a column assignment at [(i, j)] overwrites. *)
Definition mirrored (i j i' j' : nat) : bool :=
  ((i', j') == (i, j)) || ((i', j') == (j, i)).

(** The entries an arithmetic operator computes from the buffer of [a] and
    its right operand. *)
Definition result_items (op : F -> F -> F) (h : heap) (a : ref)
    (other : operand) : nat -> nat -> nat -> F :=
  match other with
  | OfMatrixArray b => elementwise op (buffer h a) (buffer h b)
  | OfScalar c => fun m i j => op (item (buffer h a) m i j) c
  | OfArray y => elementwise op (buffer h a) y
  end.

(** Addition and multiplication, the operators that commute. *)
Definition commutes (o : arith) : bool :=
  match o with
  | Add | Mul => true
  | Sub | Truediv => false
  end.


(** ** Inputs of the concrete runs *)

(** Two stacks of two 2 by 2 matrices: the diagonal matrices [2 I] and
    [3 I], and zeros.  The first instance owns the first stack; the other
    two share the second one and differ in their space. *)
Definition diag : ndarray :=
  NDArray (2, 2, 2)%N (fun m i j => if i == j then (m + 2)%:R else 0).

Definition h0 : heap :=
  Heap [:: Instance 2 2 0 Real; Instance 2 2 1 Real;
           Instance 2 2 1 FourierLike]
       [:: diag; zeros (2, 2, 2)%N].

(** Two wavenumber arrays of one shape and different entries. *)
Definition k0 : ndarrayN := NDArrayN [:: 4%N] (fun _ => 1).
Definition k1 : ndarrayN := NDArrayN [:: 4%N] (fun _ => 0).

(** A stack whose first matrix is twice the identity and whose second is
    zero, owned by one instance; and an instance over a stack of one
    matrix. *)
Definition half : ndarray :=
  NDArray (2, 2, 2)%N
    (fun m i j => if (m == 0%N) && (i == j) then 2%:R else 0).

Definition heap_half : heap := Heap [:: Instance 2 2 0 Real] [:: half].

Definition heap_single : heap :=
  Heap [:: Instance 2 1 0 Real] [:: zeros (1, 2, 2)%N].

(** The heap [h0] after the two diagonal columns of its second instance,
    which starts from zeros, have been assigned the values that [diag]
    holds there. *)
Definition h0_filled : heap :=
  (__setitem__ 1%N (1, 1)%N (Seq [:: 2%:R; 3%:R])
     (__setitem__ 1%N (0, 0)%N (Seq [:: 2%:R; 3%:R]) h0).2).2.

(** * Properties *)

(** ** Sequences updated in place *)

Lemma size_update (T : Type) (s : seq T) (n : nat) (x : T) :
  size (update s n x) = size s.
Proof. by elim: s n => [|y s IHs] [|n] //=; rewrite IHs. Qed.

Lemma nth_update (T : Type) (x0 : T) (s : seq T) (n m : nat) (x : T) :
  nth x0 (update s n x) m =
  if (m == n) && (n < size s)%N then x else nth x0 s m.
Proof.
by elim: s n m => [|y s IHs] [|n] [|m] //=; rewrite andbF.
Qed.

Lemma update_nth (T : Type) (x0 : T) (s : seq T) (n : nat) :
  update s n (nth x0 s n) = s.
Proof. by elim: s n => [|y s IHs] [|n] //=; rewrite IHs. Qed.

Lemma update_update (T : Type) (s : seq T) (n : nat) (x y : T) :
  update (update s n x) n y = update s n y.
Proof. by elim: s n => [|z s IHs] [|n] //=; rewrite IHs. Qed.

Lemma update_rcons (T : Type) (s : seq T) (x y : T) :
  update (rcons s x) (size s) y = rcons s y.
Proof. by elim: s => [|z s IHs] //=; rewrite IHs. Qed.

(** ** Construction *)

Lemma instance_last (os : seq MatrixArray) (o : MatrixArray)
    (xs : seq ndarray) :
  instance (Heap (rcons os o) xs) (size os) = o.
Proof. by rewrite /instance /= nth_rcons ltnn eqxx. Qed.

Lemma array_last (os : seq MatrixArray) (xs : seq ndarray) (x : ndarray) :
  array (Heap os (rcons xs x)) (size xs) = x.
Proof. by rewrite /array /= nth_rcons ltnn eqxx. Qed.

Lemma instance_old (os : seq MatrixArray) (o : MatrixArray)
    (xs : seq ndarray) (a : ref) :
  (a < size os)%N ->
  instance (Heap (rcons os o) xs) a = nth no_instance os a.
Proof. by move=> lt_a; rewrite /instance /= nth_rcons lt_a. Qed.

Lemma array_old (os : seq MatrixArray) (xs : seq ndarray) (x : ndarray)
    (l : loc) :
  (l < size xs)%N -> array (Heap os (rcons xs x)) l = nth no_array xs l.
Proof. by move=> lt_l; rewrite /array /= nth_rcons lt_l. Qed.

Lemma buffer_last (os : seq MatrixArray) (xs : seq ndarray)
    (r l : nat) (sp : Space) (x : ndarray) :
  buffer (Heap (rcons os (Instance r l (size xs) sp)) (rcons xs x))
         (size os) = x.
Proof. by rewrite /buffer instance_last /= array_last. Qed.

(** C8: with [data] omitted the buffer of the new instance has shape
    [(length, rank, rank)] and holds zero everywhere; with [space] omitted
    its space tag is [Real]. *)
Theorem init_defaults (length rank : nat) (h : heap) :
  (forall sp : option Space,
      exists (a : ref) (h' : heap),
        __init__ length rank None sp h = (Return a, h') /\
        shape (buffer h' a) = (length, rank, rank) /\
        (forall m i j, item (buffer h' a) m i j = 0)) /\
  (forall d : option loc,
      exists (a : ref) (h' : heap),
        __init__ length rank d None h = (Return a, h') /\
        space (instance h' a) = Real).
Proof.
split=> [sp|d].
  exists (size (objs h)); eexists; split; first by [].
  by rewrite buffer_last.
by case: d => [d|]; exists (size (objs h)); eexists; split=> //;
   rewrite instance_last.
Qed.

(** C10: [calculate] returns an array of the shape of [k] holding zero
    everywhere, the very array now stored in the [value] attribute, and two
    inputs of one shape give the same result. *)
Theorem calculate_zeros (self : NoIntra) (k : ndarrayN) :
  let: (l, self') := calculate self k in
  value self' = Some l /\
  shapeN (arrayN self' l) = shapeN k /\
  (forall idx : seq nat, itemN (arrayN self' l) idx = 0) /\
  (forall k' : ndarrayN, shapeN k' = shapeN k ->
     calculate self k' = calculate self k).
Proof.
rewrite /calculate /arrayN /= nth_rcons ltnn eqxx; split=> //; split=> //.
by split=> // k' eq_sh; rewrite /zeros_like eq_sh.
Qed.

(** ** Column access *)

Lemma mkseq_broadcast1 (l : nat) (v : colvalue) (g : nat -> F) :
  broadcast1 l v = Some g -> [seq g m | m <- iota 0 l] = as_column l v.
Proof.
case: v => [x|xs] /=.
  case=> <-; apply: (@eq_from_nth _ 0); rewrite size_map size_iota ?size_nseq //.
  by move=> m lt_m; rewrite (nth_map 0%N) ?size_iota // nth_nseq lt_m.
case: eqP => [<-|_]; first by case=> <-; exact: mkseq_nth.
case: eqP => // _ [<-]; apply: (@eq_from_nth _ 0).
  by rewrite size_map size_iota size_nseq.
rewrite size_map size_iota => m lt_m.
by rewrite (nth_map 0%N) ?size_iota // nth_nseq lt_m.
Qed.

Lemma array_write (h : heap) (l l' : loc) (x : ndarray) :
  array (write l x h).2 l' =
  if (l' == l) && (l < size (arrs h))%N then x else array h l'.
Proof. by rewrite /array /= nth_update. Qed.

(** C1: the column setter writes [v] at [(i, j)] and at [(j, i)], so that
    both columns read back as [v]; every other cell of the buffer keeps its
    entry (for [i = j] this leaves the single diagonal cell), and nothing
    else on the heap changes. *)
Theorem setitem_symmetric (h : heap) (a : ref) (i j : nat) (v : colvalue) :
  let o := instance h a in
  (data o < size (arrs h))%N ->
  shape (buffer h a) = (length o, rank o, rank o) ->
  (i < rank o)%N -> (j < rank o)%N ->
  broadcast1 (length o) v ->
  exists h' : heap,
    [/\ __setitem__ a (i, j) v h = (Return tt, h'),
        __getitem__ a (i, j) h' = (Return (as_column (length o) v), h'),
        __getitem__ a (j, i) h' = (Return (as_column (length o) v), h'),
        shape (buffer h' a) = shape (buffer h a)
      & forall m i' j', (i', j') != (i, j) -> (i', j') != (j, i) ->
          item (buffer h' a) m i' j' = item (buffer h a) m i' j'] /\
    objs h' = objs h /\
    size (arrs h') = size (arrs h) /\
    (forall l, l != data o -> array h' l = array h l).
Proof.
move=> o lt_d sh_a lt_i lt_j.
case bc: (broadcast1 _ v) => [g|] // _.
have col := mkseq_broadcast1 bc.
pose x := buffer h a.
pose x1 := NDArray (shape x)
  (fun m i' j' => if (i' == i) && (j' == j) then g m else item x m i' j').
pose x2 := NDArray (shape x)
  (fun m i' j' => if (i' == j) && (j' == i) then g m else item x1 m i' j').
have set1: set_column x i j v = Return x1.
  by rewrite /set_column /x1 /x sh_a lt_i lt_j bc.
have set2: set_column x1 j i v = Return x2.
  by rewrite /set_column /x2 /x1 /= /x sh_a lt_i lt_j bc.
have [eq_ij|ne_ij] := eqVneq i j.
- exists (Heap (objs h) (update (arrs h) (data o) x1)).
  have buf: buffer (Heap (objs h) (update (arrs h) (data o) x1)) a = x1.
    by rewrite /buffer /array /instance /= nth_update eqxx lt_d.
  split; last first.
    split=> //; split=> [|l ne_l]; first by rewrite size_update.
    by rewrite /array /= nth_update (negbTE ne_l).
  split.
  + rewrite /__setitem__ /assign_column /bind /getattr /read /lift /=.
    by rewrite -/o -/(buffer h a) set1 /= eq_ij eqxx.
  + rewrite /__getitem__ /bind /getattr /read /lift /= -/(buffer _ a) buf.
    by rewrite /column /x1 /x /= sh_a lt_i lt_j /= !eqxx col.
  + rewrite /__getitem__ /bind /getattr /read /lift /= -/(buffer _ a) buf.
    by rewrite /column /x1 /x /= sh_a lt_i lt_j /= -eq_ij !eqxx col.
  + by rewrite buf.
  + by move=> m i' j' ne1 _; rewrite buf /= -xpair_eqE (negbTE ne1).
- exists (Heap (objs h) (update (arrs h) (data o) x2)).
  have buf: buffer (Heap (objs h) (update (arrs h) (data o) x2)) a = x2.
    by rewrite /buffer /array /instance /= nth_update eqxx lt_d.
  split; last first.
    split=> //; split=> [|l ne_l]; first by rewrite size_update.
    by rewrite /array /= nth_update (negbTE ne_l).
  split.
  + rewrite /__setitem__ /assign_column /bind /getattr /read /lift /=.
    rewrite -/o -/(buffer h a) set1 /= (negbTE ne_ij) /=.
    rewrite /instance /array /= nth_update eqxx lt_d /= -/x1 set2 /=.
    by rewrite /write /= update_update.
  + rewrite /__getitem__ /bind /getattr /read /lift /= -/(buffer _ a) buf.
    rewrite /column /x2 /x1 /x /= sh_a lt_i lt_j /= !eqxx /= -col.
    by rewrite (negbTE ne_ij).
  + rewrite /__getitem__ /bind /getattr /read /lift /= -/(buffer _ a) buf.
    by rewrite /column /x2 /x1 /x /= sh_a lt_i lt_j /= !eqxx col.
  + by rewrite buf.
  + move=> m i' j' ne1 ne2; rewrite buf /=.
    by rewrite -!xpair_eqE (negbTE ne1) (negbTE ne2).
Qed.

(** ** Column iteration *)

Lemma mem_upper (r i j : nat) : ((i, j) \in upper r) = (i <= j < r)%N.
Proof.
rewrite /upper mem_filter /=.
apply/andP/andP=> [[le_ij /allpairsP[[i' j'] /= [_ in_j [_ eq_j]]]]|].
  by split=> //; rewrite eq_j; move: in_j; rewrite mem_iota.
case=> le_ij lt_j; split=> //; apply/allpairsP; exists (i, j).
by rewrite /= !mem_iota /= !add0n lt_j (leq_ltn_trans le_ij lt_j).
Qed.

Lemma count_le_iota (i r : nat) : count (leq i) (iota 0 r) = (r - i)%N.
Proof.
have below n : (n <= i)%N -> count (leq i) (iota 0 n) = 0%N.
  move=> le_ni; apply/eqP; rewrite -leqn0 leqNgt -has_count -all_predC.
  by apply/allP=> k; rewrite mem_iota /= add0n -ltnNge => /leq_trans->.
have [le_ir|/ltnW lt_ri] := leqP i r; last first.
  by rewrite below //; symmetry; apply/eqP; rewrite subn_eq0.
rewrite -{1}(subnKC le_ir) iotaD count_cat below // !add0n.
have: all (leq i) (iota i (r - i)).
  by apply/allP=> k; rewrite mem_iota => /andP[].
by rewrite all_count size_iota => /eqP.
Qed.

Lemma size_upper_rows (s : seq nat) (r : nat) :
  size [seq ij <- product s (range r) | (ij.1 <= ij.2)%N] =
  (\sum_(i <- s) (r - i))%N.
Proof.
elim: s => [|i s IHs]; first by rewrite big_nil.
rewrite /product /= filter_cat size_cat -/(product s _) IHs big_cons.
congr (_ + _)%N; rewrite filter_map size_map size_filter /=.
exact: count_le_iota.
Qed.

Lemma size_upper (r : nat) : size (upper r) = ((r * r.+1) %/ 2)%N.
Proof.
rewrite /upper size_upper_rows /range -[r in iota 0 r]subn0.
rewrite -/(index_iota 0 r) divn2 mulnC -[r in (_ * r)%N]/(r.+1.-1) -bin2.
rewrite -bin2_sum.
rewrite big_nat_recl // add0n [RHS]big_nat_rev /=.
by apply: eq_big_nat => i /andP[_ lt_ir]; rewrite add0n subnSK.
Qed.

Lemma row_major_trans : transitive row_major.
Proof.
move=> [i2 j2] [i1 j1] [i3 j3]; rewrite /row_major /=.
case/orP=> [lt12|/andP[/eqP-> lt12]]; case/orP=> [lt23|/andP[/eqP<- lt23]].
- by rewrite (ltn_trans lt12 lt23).
- by rewrite lt12.
- by rewrite lt23.
- by rewrite eqxx (ltn_trans lt12 lt23) orbT.
Qed.

Lemma product_row_major (s t : seq nat) :
  pairwise ltn s -> pairwise ltn t -> pairwise row_major (product s t).
Proof.
move=> + pw_t; elim: s => [|i s IHs] //= /andP[lt_i pw_s].
rewrite /product /= pairwise_cat -/(product s t) IHs // andbT.
apply/andP; split.
  apply/allrelP=> [[i1 j1] [i2 j2]] /mapP[j _ [-> _]].
  case/allpairsP=> [[i' j'] /= [in_i _ [-> _]]].
  by rewrite /row_major /=; move: (allP lt_i _ in_i) => /= ->.
rewrite pairwise_map; apply: sub_pairwise pw_t => j1 j2 /= lt_j.
by rewrite /row_major /= eqxx lt_j orbT.
Qed.

Lemma upper_row_major (r : nat) : sorted row_major (upper r).
Proof.
apply/pairwise_sorted/pairwise_filter/product_row_major;
  by rewrite -(sorted_pairwise ltn_trans) iota_ltn_sorted.
Qed.

Lemma for_yield_pure (A : eqType) (T : Type) (s : seq A)
    (body : A -> M (seq T)) (f : A -> seq T) (h : heap) :
  {in s, forall x, body x h = (Return (f x), h)} ->
  for_yield s body h = (Return (flatten [seq f x | x <- s]), h).
Proof.
elim: s => [|x s IHs] //= body_f.
rewrite /bind body_f ?mem_head // IHs // => y in_y.
by rewrite body_f // in_cons in_y orbT.
Qed.

Lemma flatten_guard (A T : Type) (p : pred A) (g : A -> T) (s : seq A) :
  flatten [seq (if p x then [:: g x] else [::]) | x <- s] =
  [seq g x | x <- s & p x].
Proof. by elim: s => [|x s IHs] //=; case: (p x); rewrite /= IHs. Qed.

(** C5: for rank [r] the generator yields, in row-major order and without
    touching the heap, one pair for each [(i, j)] with [i <= j < r] and no
    other: [r * (r + 1) / 2] pairs in all, each carrying the column that the
    getter returns for its index pair. *)
Theorem itercolumn_upper (h : heap) (a : ref) :
  let o := instance h a in
  shape (buffer h a) = (length o, rank o, rank o) ->
  exists ys : seq (nat * nat * seq F),
    itercolumn a h = (Return ys, h) /\
    size ys = ((rank o * (rank o).+1) %/ 2)%N /\
    [seq y.1 | y <- ys] = upper (rank o) /\
    sorted row_major [seq y.1 | y <- ys] /\
    (forall i j, ((i, j) \in [seq y.1 | y <- ys]) = (i <= j < rank o)%N) /\
    (forall y, y \in ys ->
       __getitem__ a y.1 h = (Return y.2, h) /\
       y.2 = [seq item (buffer h a) m y.1.1 y.1.2
             | m <- iota 0 (length o)]).
Proof.
move=> o sh_a.
pose col (ij : nat * nat) :=
  [seq item (buffer h a) m ij.1 ij.2 | m <- iota 0 (length o)].
have get i j : (i < rank o)%N -> (j < rank o)%N ->
    column (buffer h a) i j = Return (col (i, j)).
  by move=> lt_i lt_j; rewrite /column sh_a lt_i lt_j.
have idx: [seq y.1 | y <- [seq (ij, col ij) | ij <- upper (rank o)]] =
          upper (rank o).
  by rewrite -map_comp map_id_in.
exists [seq (ij, col ij) | ij <- upper (rank o)]; rewrite idx.
split; last split; last split=> //; last split; last split.
- rewrite /itercolumn /bind /= -/o.
  rewrite (@for_yield_pure _ _ _ _
             (fun ij => if (ij.1 <= ij.2)%N then [:: (ij, col ij)] else [::])).
    case=> i j /allpairsP[[i' j'] /= [in_i in_j [-> ->]]].
    move: in_i in_j; rewrite !mem_iota /= !add0n => lt_i lt_j.
    case: ifP => // _.
    by rewrite /bind /getattr /read /lift /= -/(buffer h a) get.
  by rewrite (@flatten_guard _ _ (fun ij => ij.1 <= ij.2)%N
                (fun ij => (ij, col ij))).
- by rewrite size_map size_upper.
- exact: upper_row_major.
- exact: mem_upper.
- case=> [[i j] c] /mapP[[i' j']]; rewrite mem_upper => /andP[le_ij lt_j].
  case=> -> -> ->; split=> //.
  rewrite /__getitem__ /bind /getattr /read /lift /= -/(buffer h a) get //.
  exact: leq_ltn_trans le_ij lt_j.
Qed.

(** ** The space guard *)

Lemma methodE (o : arith) :
  exists op : F -> F -> F, method o = binary_op op /\ imethod o = inplace_op op.
Proof. by case: o; eexists; split. Qed.



Lemma einsum_raises (x y : ndarray) (e : exn) :
  einsum_lij_ljk x y = Raise e -> e = ValueError.
Proof.
rewrite /einsum_lij_ljk.
case: (shape x) => [[l i] j]; case: (shape y) => [[l' j'] k].
case: (broadcast_dim l l') => [l0|]; last by case.
by case: (broadcast_dim j j') => [j0|] //; case.
Qed.

Lemma einsum_same (x y : ndarray) (l i j k : nat) :
  shape x = (l, i, j) -> shape y = (l, j, k) ->
  einsum_lij_ljk x y =
  Return (NDArray (l, i, k)
            (fun m p q => \sum_(0 <= t < j) item x m p t * item y m t q)).
Proof.
move=> sh_x sh_y.
by rewrite /einsum_lij_ljk sh_x sh_y /broadcast_dim /stretch !eqxx.
Qed.

Lemma einsum_mulmx (r : nat) (f g : nat -> nat -> F) :
  mx_of r (fun p q => \sum_(0 <= t < r) f p t * g t q) =
  mx_of r f *m mx_of r g.
Proof.
apply/matrixP=> i j; rewrite !mxE big_mkord.
by apply: eq_bigr => k _; rewrite !mxE.
Qed.

Lemma dot_falseE (h : heap) (a b : ref) (z : ndarray) :
  einsum_lij_ljk (buffer h a) (buffer h b) = Return z ->
  let o := instance h a in
  dot a b false h =
  (Return (size (objs h)),
   Heap (rcons (objs h)
           (Instance (rank o) (length o) (size (arrs h)) (space o)))
        (rcons (arrs h) z)).
Proof.
by rewrite /dot /bind /getattr /read /lift /= -!/(buffer h _) => ->.
Qed.


(** C9: an in-place operator that ends in the assertion error has changed
    nothing: the heap, and with it the buffer of the left operand, is the
    one it started from. *)
Theorem inplace_atomic (h h' : heap) (a : ref) (msg : string) :
  (forall (o : arith) (other : operand),
     imethod o a other h = (Raise (AssertionError msg), h') ->
     h' = h /\ buffer h' a = buffer h a) /\
  (forall b : ref,
     __imatmul__ a b h = (Raise (AssertionError msg), h') ->
     h' = h /\ buffer h' a = buffer h a).
Proof.
split=> [o other|b].
  have [op [_ ->]] := methodE o.
  rewrite /inplace_op /bind /getattr /assert /read /lift /ufunc_inplace.
  case: other => [b|x|y] /=.
  - by case: eqP => _ /=; [case: ifP => _ | case=> _ <-].
  - by [].
  - by case: ifP.
rewrite /__imatmul__ /dot /bind /getattr /assert /read /lift /=.
case: eqP => _ /=; last by case=> _ <-.
case ein: (einsum_lij_ljk _ _) => [z|e] //=.
by rewrite (einsum_raises ein).
Qed.

(** ** The tags of an instance never change *)

Lemma keeps_tags_heap (A : Type) (m : M A) :
  (forall h, objs (m h).2 = objs h) -> keeps_tags m.
Proof. by move=> same h; rewrite /instance same. Qed.

Lemma keeps_ret (A : Type) (x : A) : keeps_tags (ret x).
Proof. exact: keeps_tags_heap. Qed.

Lemma keeps_raise (A : Type) (e : exn) : keeps_tags (@raise A e).
Proof. exact: keeps_tags_heap. Qed.

Lemma keeps_lift (A : Type) (o : outcome A) : keeps_tags (lift o).
Proof. exact: keeps_tags_heap. Qed.

Lemma keeps_assert (b : bool) (msg : string) : keeps_tags (assert b msg).
Proof. by apply: keeps_tags_heap => h; case: b. Qed.

Lemma keeps_getattr (a : ref) : keeps_tags (getattr a).
Proof. exact: keeps_tags_heap. Qed.

Lemma keeps_read (l : loc) : keeps_tags (read l).
Proof. exact: keeps_tags_heap. Qed.

Lemma keeps_write (l : loc) (x : ndarray) : keeps_tags (write l x).
Proof. exact: keeps_tags_heap. Qed.

Lemma keeps_alloc (x : ndarray) : keeps_tags (alloc x).
Proof. exact: keeps_tags_heap. Qed.

Lemma keeps_new (o : MatrixArray) : keeps_tags (new o).
Proof.
move=> h /=; rewrite size_rcons leqnSn; split=> // x lt_x.
by rewrite instance_old.
Qed.

Lemma keeps_set_data (a : ref) (l : loc) : keeps_tags (set_data a l).
Proof.
move=> h /=; rewrite size_update leqnn; split=> // x lt_x.
rewrite /instance /= nth_update.
by case: eqP => [->|//]; case: ifP.
Qed.

Lemma keeps_bind (A B : Type) (m : M A) (k : A -> M B) :
  keeps_tags m -> (forall x, keeps_tags (k x)) -> keeps_tags (bind m k).
Proof.
move=> keeps_m keeps_k h; rewrite /bind.
have [le_m same_m] := keeps_m h.
case: (m h) le_m same_m => [[x|e] h1] /= le_m same_m //.
have [le_k same_k] := keeps_k x h1; split; first exact: leq_trans le_k.
by move=> y lt_y; rewrite same_k ?same_m //; apply: leq_trans le_m.
Qed.

Lemma keeps_for_each (s : seq nat) (body : nat -> M unit) :
  (forall i, keeps_tags (body i)) -> keeps_tags (for_each s body).
Proof.
move=> keeps_body; elim: s => [|i s IHs] /=; first exact: keeps_ret.
exact: keeps_bind.
Qed.

Lemma keeps_if (A : Type) (b : bool) (m1 m2 : M A) :
  keeps_tags m1 -> keeps_tags m2 -> keeps_tags (if b then m1 else m2).
Proof. by case: b. Qed.

Create HintDb keeps.

#[local] Hint Resolve keeps_ret keeps_raise keeps_lift keeps_assert
  keeps_getattr keeps_read keeps_write keeps_alloc keeps_new keeps_set_data
  keeps_if : keeps.

Ltac keeps_step :=
  first [ apply: keeps_bind => [|?] | apply: keeps_for_each => ?
        | solve [auto with keeps] ].

Lemma keeps_init (l r : nat) (d : option loc) (sp : option Space) :
  keeps_tags (__init__ l r d sp).
Proof. by rewrite /__init__; case: d => [d|]; do !keeps_step. Qed.

Lemma keeps_setitem (a : ref) (key : nat * nat) (v : colvalue) :
  keeps_tags (__setitem__ a key v).
Proof.
case: key => i j; rewrite /__setitem__ /assign_column.
by case: (i == j); do !keeps_step.
Qed.

Lemma keeps_inplace (op : F -> F -> F) (a : ref) (other : operand) :
  keeps_tags (inplace_op op a other).
Proof. by rewrite /inplace_op; case: other => [b|x|y]; do !keeps_step. Qed.

Lemma keeps_binary (op : F -> F -> F) (a : ref) (other : operand) :
  keeps_tags (binary_op op a other).
Proof.
rewrite /binary_op; apply: keeps_bind => [|o]; first exact: keeps_getattr.
apply: keeps_bind => [|d]; last exact: keeps_init.
by case: other => [b|x|y]; do !keeps_step.
Qed.

Lemma keeps_invert (a : ref) (inpl : bool) : keeps_tags (invert a inpl).
Proof.
rewrite /invert; apply: keeps_bind => [|o]; first exact: keeps_getattr.
apply: keeps_bind => [|d]; first by case: inpl; do !keeps_step.
apply: keeps_bind => [|_].
  by apply: keeps_for_each => i; rewrite /invert_slice; do !keeps_step.
by case: inpl; [exact: keeps_ret | exact: keeps_init].
Qed.

Lemma keeps_dot (a b : ref) (inpl : bool) : keeps_tags (dot a b inpl).
Proof.
rewrite /dot; do 6![apply: keeps_bind => [|?]; first by auto with keeps].
by case: inpl; [do !keeps_step | exact: keeps_init].
Qed.

Lemma keeps_imatmul (a b : ref) : keeps_tags (__imatmul__ a b).
Proof.
rewrite /__imatmul__.
do 3![apply: keeps_bind => [|?]; first by auto with keeps].
exact: keeps_dot.
Qed.

(** C7: the space tag of an instance is the one given at construction, and
    no mutating operation (column setter, in-place arithmetic, in-place
    inversion, in-place product and the [@=] operator) changes the space tag
    of any instance on the heap, whatever the outcome of the operation. *)
Theorem space_fixed (h : heap) (x : ref) :
  (x < size (objs h))%N ->
  (forall a key v,
     space (instance (__setitem__ a key v h).2 x) = space (instance h x)) /\
  (forall o a other,
     space (instance (imethod o a other h).2 x) = space (instance h x)) /\
  (forall a, space (instance (invert a true h).2 x) = space (instance h x)) /\
  (forall a b,
     space (instance (dot a b true h).2 x) = space (instance h x)) /\
  (forall a b,
     space (instance (__imatmul__ a b h).2 x) = space (instance h x)) /\
  (forall l r d sp,
     let: (c, h') := __init__ l r d (Some sp) h in
     c = Return (size (objs h)) /\
     space (instance h' (size (objs h))) = sp /\
     space (instance h' x) = space (instance h x)).
Proof.
move=> lt_x.
have kept A (m : M A) : keeps_tags m ->
    space (instance (m h).2 x) = space (instance h x).
  by move=> keeps_m; have [_ /(_ x lt_x) [_ _ ->]] := keeps_m h.
split=> [a key v|]; first exact/kept/keeps_setitem.
split=> [o a other|].
  by have [op [_ ->]] := methodE o; exact/kept/keeps_inplace.
split=> [a|]; first exact/kept/keeps_invert.
split=> [a b|]; first exact/kept/keeps_dot.
split=> [a b|l r d sp]; first exact/kept/keeps_imatmul.
have := kept _ _ (keeps_init l r d (Some sp)).
rewrite /__init__ /bind; case: d => [d|] /= ->; rewrite instance_last.
  by [].
by [].
Qed.

(** ** In-place and non-mutating arithmetic *)

Lemma broadcast_dimxx (n : nat) : broadcast_dim n n = Some n.
Proof. by rewrite /broadcast_dim eqxx. Qed.

Lemma broadcasts_to_refl (s : nat * nat * nat) : broadcasts_to s s.
Proof.
by case: s => [[l r] c]; rewrite /broadcasts_to /= !broadcast_dimxx.
Qed.

Lemma valid_same_shape (h : heap) (a b : ref) :
  space (instance h a) = space (instance h b) ->
  shape (buffer h b) = shape (buffer h a) ->
  valid_operand h a (OfMatrixArray b).
Proof. by move=> /= -> ->; rewrite eqxx broadcasts_to_refl. Qed.

Lemma ufunc_broadcasts_to (op : F -> F -> F) (x y : ndarray) :
  broadcasts_to (shape x) (shape y) ->
  ufunc op x y = Return (NDArray (shape x) (elementwise op x y)) /\
  ufunc_inplace op x y = Return (NDArray (shape x) (elementwise op x y)).
Proof.
by rewrite /broadcasts_to /ufunc /ufunc_inplace => /[dup] /eqP-> ->.
Qed.

Lemma instance_write (h : heap) (l : loc) (z : ndarray) (a : ref) :
  instance (write l z h).2 a = instance h a.
Proof. by []. Qed.

Lemma buffer_write (h : heap) (a : ref) (z : ndarray) :
  (data (instance h a) < size (arrs h))%N ->
  buffer (write (data (instance h a)) z h).2 a = z.
Proof.
by move=> lt_d; rewrite /buffer instance_write array_write eqxx lt_d.
Qed.

(** C3: for each of the four operators and every valid operand, the
    in-place method succeeds wherever the non-mutating one does, returns the
    instance it was called on, and leaves in its buffer exactly the array
    that the non-mutating method puts in the buffer of its result. *)
Theorem inplace_matches (h : heap) (a : ref) (o : arith) (other : operand) :
  (data (instance h a) < size (arrs h))%N ->
  valid_operand h a other ->
  exists (c : ref) (h1 h2 : heap),
    [/\ method o a other h = (Return c, h1),
        imethod o a other h = (Return a, h2),
        buffer h2 a = buffer h1 c,
        same_array (buffer h2 a) (buffer h1 c)
      & instance h2 a = instance h a].
Proof.
move=> lt_d valid; have [op [-> ->]] := methodE o.
suff [c [h1 [h2 [run1 run2 eq_buf same_a]]]]:
    exists (c : ref) (h1 h2 : heap),
      [/\ binary_op op a other h = (Return c, h1),
          inplace_op op a other h = (Return a, h2),
          buffer h2 a = buffer h1 c & instance h2 a = instance h a].
  by exists c, h1, h2; split=> //; rewrite eq_buf.
rewrite /binary_op /inplace_op /bind /getattr /read /assert /lift /=.
case: other valid => [b|x|y] /=.
- case/andP=> /eqP<-; rewrite eqxx /= -!/(buffer h _) => bc.
  have [-> ->] /= := ufunc_broadcasts_to op bc.
  by do 3!eexists; split=> //; rewrite buffer_last (buffer_write _ lt_d).
- rewrite -!/(buffer h _).
  by do 3!eexists; split=> //; rewrite buffer_last (buffer_write _ lt_d).
- rewrite -!/(buffer h _) => bc.
  have [-> ->] /= := ufunc_broadcasts_to op bc.
  by do 3!eexists; split=> //; rewrite buffer_last (buffer_write _ lt_d).
Qed.

(** ** What the non-mutating methods leave behind *)

Lemma fresh_heap (a : ref) (m : M ref) :
  (forall (h h' : heap) (c : ref),
     m h = (Return c, h') ->
     exists z : ndarray,
       c = size (objs h) /\
       h' = Heap (rcons (objs h)
                    (Instance (rank (instance h a)) (length (instance h a))
                       (size (arrs h)) (space (instance h a))))
                 (rcons (arrs h) z)) ->
  fresh_result a m.
Proof.
move=> fresh h h' c /fresh[z [-> ->]]; rewrite instance_last /=; split=> //.
- by rewrite !size_rcons.
- split=> [x lt_x|l lt_l]; first by rewrite instance_old.
  by rewrite array_old.
- by move=> z'; rewrite /buffer instance_last /= update_rcons /array /= nth_rcons
    ltnn eqxx.
- move=> l z' lt_l; rewrite update_rcons array_old //; split=> //.
  rewrite /buffer !instance_last /= /array /= nth_update.
  by rewrite eq_sym (ltn_eqF lt_l).
Qed.

Lemma invert_slice_writes (a : ref) (d : loc) (i : nat) (h : heap) :
  exists z : ndarray,
    (invert_slice a d i h).2 = Heap (objs h) (update (arrs h) d z).
Proof.
have same: h = Heap (objs h) (update (arrs h) d (array h d)).
  by rewrite /array update_nth; case: h.
rewrite /invert_slice /bind /getattr /read /lift /=.
case: (getslice _ _) => [s|e] /=; last by exists (array h d).
case: (linalg_inv _) => [s'|e] /=; last by exists (array h d).
case: (setslice _ _ _) => [y'|e] /=; last by exists (array h d).
by exists y'.
Qed.

Lemma invert_loop_writes (a : ref) (d : loc) (s : seq nat) (h : heap) :
  exists z : ndarray,
    (for_each s (invert_slice a d) h).2 = Heap (objs h) (update (arrs h) d z).
Proof.
elim: s h => [|i s IHs] h /=.
  by exists (array h d); rewrite /array update_nth; case: h.
rewrite /bind; have [z] := invert_slice_writes a d i h.
case: (invert_slice a d i h) => [[[]|e] h1] /= ->; last by exists z.
by have [z' ->] := IHs (Heap (objs h) (update (arrs h) d z));
   exists z'; rewrite /= update_update.
Qed.

Lemma binary_fresh (op : F -> F -> F) (a : ref) (other : operand) :
  fresh_result a (binary_op op a other).
Proof.
apply: fresh_heap => h h' c.
rewrite /binary_op /bind /getattr /read /assert /lift /ufunc /=.
case: other => [b|x|y] /=.
- case: eqP => _ //=; case: (broadcast_shape _ _) => [s|] //= [<- <-].
  by eexists.
- by case=> <- <-; eexists.
- by case: (broadcast_shape _ _) => [s|] //= [<- <-]; eexists.
Qed.

Lemma dot_fresh (a b : ref) : fresh_result a (dot a b false).
Proof.
apply: fresh_heap => h h' c.
rewrite /dot /bind /getattr /read /lift /=.
by case: (einsum_lij_ljk _ _) => [z|e] //= [<- <-]; eexists.
Qed.

Lemma invert_fresh (a : ref) : fresh_result a (invert a false).
Proof.
apply: fresh_heap => h h' c.
rewrite /invert /bind /getattr /read /=.
set h1 := Heap _ _; set loop := for_each _ _ _.
have [z]: exists z, loop.2 = Heap (objs h1) (update (arrs h1) (size (arrs h)) z).
  exact: invert_loop_writes.
rewrite /= update_rcons.
by case: loop => [[[]|e] h2] //= -> [<- <-]; exists z.
Qed.


(** ** Inversion followed by the batched product *)

Lemma mx_of_fun_of_mx (n : nat) (A : 'M[F]_n) : mx_of n (fun_of_mx A) = A.
Proof. by apply/matrixP=> i j; rewrite mxE /fun_of_mx !valK. Qed.

Lemma mx_of_entry (n : nat) (f : nat -> nat -> F) (i j : nat)
    (lt_i : (i < n)%N) (lt_j : (j < n)%N) :
  f i j = mx_of n f (Ordinal lt_i) (Ordinal lt_j).
Proof. by rewrite mxE. Qed.

Lemma invert_slice_run (a : ref) (d : loc) (l r i : nat) (h : heap) :
  let x := buffer h a in
  shape x = (l, r, r) -> shape (array h d) = (l, r, r) ->
  (i < l)%N -> mx_of r (item x i) \in unitmx ->
  invert_slice a d i h =
  (Return tt,
   Heap (objs h)
     (update (arrs h) d
        (NDArray (l, r, r)
           (fun m => if m == i then inverse_of x r i
                     else item (array h d) m)))).
Proof.
move=> x sh_x sh_d lt_i unit_i.
rewrite /invert_slice /bind /getattr /read /lift /= -/(buffer h a) -/x.
rewrite /getslice sh_x lt_i /= /linalg_inv /= eqxx unit_i /=.
by rewrite /setslice sh_d lt_i /= eqxx.
Qed.

Lemma invert_loop_run (a : ref) (d : loc) (l r : nat) (x : ndarray)
    (s : seq nat) (h : heap) :
  buffer h a = x -> shape x = (l, r, r) ->
  data (instance h a) != d -> (d < size (arrs h))%N ->
  shape (array h d) = (l, r, r) ->
  all (fun m => (m < l)%N && (mx_of r (item x m) \in unitmx)) s ->
  exists y : ndarray,
    [/\ for_each s (invert_slice a d) h =
          (Return tt, Heap (objs h) (update (arrs h) d y)),
        shape y = (l, r, r)
      & forall m, item y m =
          if m \in s then inverse_of x r m else item (array h d) m].
Proof.
elim: s h => [|i s IHs] h buf_a sh_x ne_d lt_d sh_d /=.
  move=> _; exists (array h d); split=> //.
  by rewrite /ret /array update_nth; case: (h).
case/andP=> /andP[lt_i unit_i] all_s.
rewrite /bind (@invert_slice_run a d l r) ?buf_a //.
set y1 := NDArray _ _; set h1 := Heap _ _.
have arr1 k : array h1 k = if k == d then y1 else array h k.
  by rewrite /array /= nth_update lt_d andbT.
have [] := IHs h1.
- by rewrite /buffer arr1 (negbTE ne_d).
- by [].
- by [].
- by rewrite /= size_update.
- by rewrite arr1 eqxx.
- by [].
move=> y [-> sh_y item_y]; exists y; split=> //=; first by rewrite update_update.
move=> m; rewrite item_y in_cons arr1 eqxx /=.
by case: (m \in s); [rewrite orbT | rewrite orbF; case: eqP => [->|]].
Qed.

Lemma invert_false_run (h : heap) (a : ref) :
  let o := instance h a in
  (data o < size (arrs h))%N ->
  shape (buffer h a) = (length o, rank o, rank o) ->
  (forall m, (m < length o)%N ->
     mx_of (rank o) (item (buffer h a) m) \in unitmx) ->
  exists y : ndarray,
    [/\ invert a false h =
          (Return (size (objs h)),
           Heap (rcons (objs h)
                   (Instance (rank o) (length o) (size (arrs h)) (space o)))
                (rcons (arrs h) y)),
        shape y = (length o, rank o, rank o)
      & forall m, (m < length o)%N ->
          item y m = inverse_of (buffer h a) (rank o) m].
Proof.
move=> o lt_d sh_a unit_a.
set l := length o; set r := rank o; set x := buffer h a.
pose h0 := Heap (objs h) (rcons (arrs h) x).
have [] := @invert_loop_run a (size (arrs h)) l r x (range l) h0.
- by rewrite /buffer /instance /= -/(instance h a) array_old.
- by [].
- by rewrite /instance /= -/(instance h a) (ltn_eqF lt_d).
- by rewrite /= size_rcons.
- by rewrite array_last.
- apply/allP=> m; rewrite mem_iota /= add0n => lt_m.
  by rewrite lt_m unit_a.
move=> y [loop sh_y item_y]; exists y; split=> //.
  rewrite /invert /bind /getattr /read /= -/(buffer h a) -/x -/h0 loop /=.
  by rewrite update_rcons.
by move=> m lt_m; rewrite item_y mem_iota /= add0n lt_m.
Qed.

(** C6: if every slice of [a] is invertible, then [a.dot(a.invert())]
    succeeds and each slice of its result is the identity matrix. *)
Theorem invert_dot_identity (h : heap) (a : ref) :
  let o := instance h a in
  (a < size (objs h))%N -> (data o < size (arrs h))%N ->
  shape (buffer h a) = (length o, rank o, rank o) ->
  (forall m, (m < length o)%N ->
     mx_of (rank o) (item (buffer h a) m) \in unitmx) ->
  exists (b : ref) (h1 : heap) (c : ref) (h2 : heap),
    [/\ invert a false h = (Return b, h1),
        dot a b false h1 = (Return c, h2),
        shape (buffer h2 c) = (length o, rank o, rank o),
        forall m, (m < length o)%N ->
          mx_of (rank o) (item (buffer h2 c) m) = 1%:M
      & forall m i j,
          (m < length o)%N -> (i < rank o)%N -> (j < rank o)%N ->
          item (buffer h2 c) m i j = (i == j)%:R].
Proof.
move=> o lt_a lt_d sh_a unit_a.
have [y [run1 sh_y item_y]] := invert_false_run lt_d sh_a unit_a.
set l := length o in sh_a unit_a run1 sh_y item_y *.
set r := rank o in sh_a unit_a run1 sh_y item_y *.
set x := buffer h a in sh_a unit_a item_y *.
move: run1; set h1 := Heap _ _ => run1.
have buf_a: buffer h1 a = x.
  by rewrite /buffer instance_old //= -/(instance h a) array_old.
have buf_b: buffer h1 (size (objs h)) = y by rewrite buffer_last.
pose z := NDArray (l, r, r)
  (fun m p q => \sum_(0 <= t < r) item x m p t * item y m t q).
have ein: einsum_lij_ljk (buffer h1 a) (buffer h1 (size (objs h))) = Return z.
  by rewrite buf_a buf_b; exact: einsum_same.
have id_z m : (m < l)%N -> mx_of r (item z m) = 1%:M.
  move=> lt_m; rewrite /= einsum_mulmx item_y // /inverse_of.
  by rewrite mx_of_fun_of_mx mulmxV ?unit_a.
exists (size (objs h)), h1, (size (objs h1)); eexists; split.
- exact: run1.
- exact: dot_falseE ein.
- by rewrite buffer_last.
- by move=> m lt_m; rewrite buffer_last id_z.
- move=> m i j lt_m lt_i lt_j.
  by rewrite buffer_last (mx_of_entry _ lt_i lt_j) id_z // !mxE.
Qed.

(** ** Non-mutating methods return, and what they return is new *)

Lemma binary_returns (op : F -> F -> F) (h : heap) (a : ref)
    (other : operand) :
  valid_operand h a other -> is_return (binary_op op a other h).1.
Proof.
rewrite /binary_op /bind /getattr /read /assert /lift /=.
case: other => [b|x|y] //=.
- case/andP=> /eqP<-; rewrite eqxx /= -!/(buffer h _) => bc.
  by have [-> _] := ufunc_broadcasts_to op bc.
- rewrite -!/(buffer h _) => bc.
  by have [-> _] := ufunc_broadcasts_to op bc.
Qed.

Lemma dot_returns (h : heap) (a b : ref) (l r : nat) :
  shape (buffer h a) = (l, r, r) -> shape (buffer h b) = (l, r, r) ->
  is_return (dot a b false h).1.
Proof.
move=> sh_a sh_b; rewrite /dot /bind /getattr /read /lift /=.
by rewrite -!/(buffer h _) (einsum_same sh_a sh_b).
Qed.

(** C4: each non-mutating operation (the four arithmetic operators,
    [invert(inplace=False)] and [dot(other, inplace=False)]) returns an
    instance that did not exist before, with the rank, length and space of
    the left operand and a buffer that did not exist before: the call
    allocates exactly one instance and one array, and the [data] slot of the
    result refers to that array.  Instances and buffers that existed keep
    their contents, a write to the new buffer is read back through the
    result, and a later write to the new buffer or to an old one does not
    reach the other side.  On operands that meet the contract of the
    operation, it does return. *)
Theorem nonmutating_fresh (a : ref) :
  [/\ forall (o : arith) (other : operand), fresh_result a (method o a other),
      fresh_result a (invert a false)
    & forall b : ref, fresh_result a (dot a b false)] /\
  [/\ forall (o : arith) (other : operand) (h : heap),
        valid_operand h a other -> is_return (method o a other h).1,
      forall h : heap,
        let o := instance h a in
        (data o < size (arrs h))%N ->
        shape (buffer h a) = (length o, rank o, rank o) ->
        (forall m, (m < length o)%N ->
           mx_of (rank o) (item (buffer h a) m) \in unitmx) ->
        is_return (invert a false h).1
    & forall (b : ref) (h : heap) (l r : nat),
        shape (buffer h a) = (l, r, r) -> shape (buffer h b) = (l, r, r) ->
        is_return (dot a b false h).1].
Proof.
split; split=> [o other|| b].
- by have [op [-> _]] := methodE o; exact: binary_fresh.
- exact: invert_fresh.
- exact: dot_fresh.
- by have [op [-> _]] := methodE o => h; exact: binary_returns.
- move=> h o lt_d sh_a unit_a.
  by have [y [-> _ _]] := invert_false_run lt_d sh_a unit_a.
- by move=> h l r; exact: dot_returns.
Qed.

(** * Further properties *)

(** ** Running the column accessors *)

Lemma getitemE (h : heap) (a : ref) (i j : nat) :
  __getitem__ a (i, j) h = (column (buffer h a) i j, h).
Proof. by []. Qed.

Lemma buffer_invalid (h : heap) (a : ref) :
  (size (arrs h) <= data (instance h a))%N -> buffer h a = no_array.
Proof. by move=> le_d; rewrite /buffer /array nth_default. Qed.

Lemma set_columnP (x : ndarray) (i j : nat) (v : colvalue) :
  let: (l, r, c) := shape x in
  match set_column x i j v with
  | Return y =>
      [/\ (i < r)%N, (j < c)%N, shape y = shape x
        & exists2 g, broadcast1 l v = Some g
          & item y = fun m i' j' =>
              if (i' == i) && (j' == j) then g m else item x m i' j']
  | Raise e =>
      if (i < r)%N && (j < c)%N then e = ValueError /\ broadcast1 l v = None
      else e = IndexError
  end.
Proof.
rewrite /set_column; case: (shape x) => [[l r] c].
case: ifP => [/andP[lt_i lt_j]|] //.
by case bc: (broadcast1 l v) => [g|] //; split=> //; exists g.
Qed.

Lemma setitem_inv (h h' : heap) (a : ref) (i j : nat) (v : colvalue) :
  __setitem__ a (i, j) v h = (Return tt, h') ->
  exists (y : ndarray) (g : nat -> F),
    [/\ h' = Heap (objs h) (update (arrs h) (data (instance h a)) y),
        (data (instance h a) < size (arrs h))%N,
        shape y = shape (buffer h a),
        broadcast1 (shape (buffer h a)).1.1 v = Some g
      & forall m i' j', item y m i' j' =
          if mirrored i j i' j' then g m else item (buffer h a) m i' j'].
Proof.
have [lt_d|le_d] := ltnP (data (instance h a)) (size (arrs h)); last first.
  rewrite /__setitem__ /assign_column /bind /getattr /read /lift /=.
  by rewrite -/(buffer h a) buffer_invalid.
rewrite /__setitem__ /assign_column /bind /getattr /read /lift /=.
rewrite -/(buffer h a); have := set_columnP (buffer h a) i j v.
case sh_a: (shape _) => [[l r] c].
case: (set_column _ i j v) => [x1|e] //= [lt_i lt_j sh_1 [g bc item_1]].
have [eq_ij|ne_ij] /= := eqVneq i j.
  case=> <-; exists x1, g; split=> // m i' j'.
  by rewrite item_1 /mirrored -eq_ij orbb -pair_eqE.
rewrite /instance /array /= nth_update eqxx lt_d /=.
have := set_columnP x1 j i v; rewrite sh_1.
case: (set_column x1 j i v) => [x2|e] //= [lt_j' lt_i' sh_2 [g' bc' item_2]].
rewrite /write /= update_update => -[<-]; exists x2, g; split=> //.
move=> m i' j'; rewrite item_2 item_1 /mirrored -!pair_eqE /=.
move: bc'; rewrite bc => -[<-].
by case: ((i' == j) && _); rewrite ?orbT ?orbF.
Qed.

Lemma setitem_run (h : heap) (a : ref) (i j l r : nat) (v : colvalue)
    (g : nat -> F) :
  (data (instance h a) < size (arrs h))%N ->
  shape (buffer h a) = (l, r, r) -> (i < r)%N -> (j < r)%N ->
  broadcast1 l v = Some g ->
  exists y : ndarray,
    [/\ __setitem__ a (i, j) v h =
          (Return tt, Heap (objs h) (update (arrs h) (data (instance h a)) y)),
        shape y = (l, r, r)
      & forall m i' j', item y m i' j' =
          if mirrored i j i' j' then g m else item (buffer h a) m i' j'].
Proof.
move=> lt_d sh_a lt_i lt_j bc.
case run: (__setitem__ a (i, j) v h) => [[[]|e] h'].
  have [y [g' [-> _ sh_y]]] := setitem_inv run.
  rewrite sh_a /= bc => -[<-] item_y.
  by exists y; split=> //; rewrite sh_y.
move: run; rewrite /__setitem__ /assign_column /bind /getattr /read /lift /=.
rewrite -/(buffer h a) /set_column sh_a lt_i lt_j bc /=.
case: eqP => _ //=.
by rewrite /instance /array /= nth_update eqxx lt_d /= lt_i lt_j bc.
Qed.

Lemma mirroredC (i j i' j' : nat) : mirrored i j j' i' = mirrored i j i' j'.
Proof.
rewrite /mirrored -!pair_eqE /= orbC.
by rewrite [(j' == j) && _]andbC [(j' == i) && _]andbC.
Qed.

Lemma mirrored_refl (i j : nat) : mirrored i j i j.
Proof. by rewrite /mirrored eqxx. Qed.

(** X1: on a buffer of shape [(l, r, r)] the getter returns the column
    exactly when both indices are below [r] and raises [IndexError]
    otherwise, never touching the heap; the setter succeeds exactly when
    both indices are below [r] and the value broadcasts to length [l], and a
    setter that raises ([IndexError] for the indices, [ValueError] for the
    value) has written nothing. *)
Theorem column_access_outcome (h : heap) (a : ref) (i j l r : nat)
    (v : colvalue) :
  (data (instance h a) < size (arrs h))%N ->
  shape (buffer h a) = (l, r, r) ->
  __getitem__ a (i, j) h =
    (if (i < r)%N && (j < r)%N
     then Return [seq item (buffer h a) m i j | m <- iota 0 l]
     else Raise IndexError, h) /\
  (if (i < r)%N && (j < r)%N then
     if broadcast1 l v then (__setitem__ a (i, j) v h).1 = Return tt
     else __setitem__ a (i, j) v h = (Raise ValueError, h)
   else __setitem__ a (i, j) v h = (Raise IndexError, h)).
Proof.
move=> lt_d sh_a; split; first by rewrite getitemE /column sh_a.
case: ifP => [/andP[lt_i lt_j]|out].
  case bc: (broadcast1 l v) => [g|].
    by have [y [-> _ _]] := setitem_run lt_d sh_a lt_i lt_j bc.
  rewrite /__setitem__ /assign_column /bind /getattr /read /lift /=.
  by rewrite -/(buffer h a) /set_column sh_a lt_i lt_j bc.
rewrite /__setitem__ /assign_column /bind /getattr /read /lift /=.
by rewrite -/(buffer h a) /set_column sh_a out.
Qed.

(** X2: symmetry is an invariant of the setter interface: the buffer of a
    default-constructed instance is symmetric, and a column assignment that
    returns leaves the buffer of every instance symmetric if it was. *)
Theorem setitem_keeps_symmetric (h : heap) :
  (forall (l r : nat) (sp : option Space),
     symmetric (buffer (__init__ l r None sp h).2 (size (objs h)))) /\
  (forall (h' : heap) (a : ref) (key : nat * nat) (v : colvalue),
     __setitem__ a key v h = (Return tt, h') ->
     forall x : ref, symmetric (buffer h x) -> symmetric (buffer h' x)).
Proof.
split=> [l r sp|h' a [i j] v run x]; first by rewrite /= buffer_last.
have [y [g [-> lt_d sh_y _ item_y]]] := setitem_inv run.
rewrite /buffer /instance /array /= nth_update lt_d andbT.
rewrite -/(instance h x) -/(array h _) -/(buffer h x).
case: eqP => // eq_d; have ->: buffer h x = buffer h a by rewrite /buffer eq_d.
move=> sym_a m i' j'; rewrite sh_y => lt_m lt_i lt_j.
by rewrite !item_y mirroredC sym_a.
Qed.

(** X3: an instance constructed over existing data refers to that very
    buffer: no array is allocated, and a column written through the new
    instance is what the getter of the instance it was taken from returns. *)
Theorem init_shares_data (h : heap) (x : ref) (l r i j : nat)
    (sp : option Space) (v : colvalue) :
  let d := data (instance h x) in
  (x < size (objs h))%N -> (d < size (arrs h))%N ->
  shape (buffer h x) = (l, r, r) -> (i < r)%N -> (j < r)%N ->
  broadcast1 l v ->
  exists (b : ref) (h1 h2 : heap),
    [/\ __init__ l r (Some d) sp h = (Return b, h1),
        arrs h1 = arrs h,
        __setitem__ b (i, j) v h1 = (Return tt, h2)
      & __getitem__ x (i, j) h2 = (Return (as_column l v), h2)].
Proof.
move=> d lt_x lt_d sh_x lt_i lt_j; case bc: (broadcast1 l v) => [g|] // _.
set o := Instance r l d (if sp is Some s then s else Real).
pose h1 := Heap (rcons (objs h) o) (arrs h).
have inst_b: instance h1 (size (objs h)) = o by rewrite instance_last.
have buf_b: buffer h1 (size (objs h)) = buffer h x by rewrite /buffer inst_b.
have [] := @setitem_run h1 (size (objs h)) i j l r v g; rewrite ?inst_b ?buf_b //.
move=> y [run sh_y item_y]; exists (size (objs h)), h1; eexists; split=> //.
  exact: run.
rewrite getitemE /buffer instance_old // -/(instance h x) -/d.
rewrite /array /= nth_update eqxx lt_d /= /column sh_y lt_i lt_j /=.
rewrite -(mkseq_broadcast1 bc); congr (Return _, _).
by apply: eq_map => m; rewrite item_y mirrored_refl.
Qed.

(** ** Shapes are kept *)












(** ** More on the arithmetic operators *)

Lemma binary_op_run (op : F -> F -> F) (h : heap) (a : ref)
    (other : operand) :
  valid_operand h a other ->
  let o := instance h a in
  binary_op op a other h =
  (Return (size (objs h)),
   Heap (rcons (objs h)
           (Instance (rank o) (length o) (size (arrs h)) (space o)))
        (rcons (arrs h)
           (NDArray (shape (buffer h a)) (result_items op h a other)))).
Proof.
rewrite /binary_op /bind /getattr /read /assert /lift /=.
case: other => [b|x|y] //=.
- case/andP=> /eqP<-; rewrite eqxx /= -!/(buffer h _) => bc.
  by have [-> _] := ufunc_broadcasts_to op bc.
- rewrite -!/(buffer h _) => bc.
  by have [-> _] := ufunc_broadcasts_to op bc.
Qed.

Lemma inplace_op_run (op : F -> F -> F) (h : heap) (a : ref)
    (other : operand) :
  valid_operand h a other ->
  inplace_op op a other h =
  (Return a,
   Heap (objs h)
     (update (arrs h) (data (instance h a))
        (NDArray (shape (buffer h a)) (result_items op h a other)))).
Proof.
rewrite /inplace_op /bind /getattr /read /assert /lift /=.
case: other => [b|x|y] //=.
- case/andP=> /eqP<-; rewrite eqxx /= -!/(buffer h _) => bc.
  by have [_ ->] := ufunc_broadcasts_to op bc.
- rewrite -!/(buffer h _) => bc.
  by have [_ ->] := ufunc_broadcasts_to op bc.
Qed.

Lemma broadcast_dimC (m n : nat) : broadcast_dim m n = broadcast_dim n m.
Proof.
rewrite /broadcast_dim [n == m]eq_sym.
case: (eqVneq m n) => [->|ne_mn] //.
case: (eqVneq m 1%N) => [eq_m|_]; case: (eqVneq n 1%N) => [eq_n|_] //.
by rewrite eq_m eq_n eqxx in ne_mn.
Qed.

Lemma broadcast_shapeC (s t : nat * nat * nat) :
  broadcast_shape s t = broadcast_shape t s.
Proof.
case: s t => [[s0 s1] s2] [[t0 t1] t2] /=.
by rewrite (broadcast_dimC s0) (broadcast_dimC s1) (broadcast_dimC s2).
Qed.

Lemma broadcast_item_in (x : ndarray) (m i j : nat) :
  (m < (shape x).1.1)%N -> (i < (shape x).1.2)%N -> (j < (shape x).2)%N ->
  broadcast_item x m i j = item x m i j.
Proof.
rewrite /broadcast_item /broadcast_index; case: (shape x) => [[s0 s1] s2] /=.
have one d k : (k < d)%N -> (if d == 1%N then 0%N else k) = k.
  by case: eqP => [->|//]; case: k.
by move=> /one-> /one-> /one->.
Qed.

(** X5: in-place arithmetic and the in-place product are atomic, not only
    for the space assertion but also for the [ValueError] that numpy raises
    on shapes that do not fit: whenever [+=], [-=], [*=], [/=],
    [dot(inplace=True)] or [@=] raises, the heap is the one it started
    from. *)
Theorem inplace_failure_atomic (h h' : heap) (a : ref) (e : exn) :
  [/\ forall (o : arith) (other : operand),
        imethod o a other h = (Raise e, h') -> h' = h,
      forall b : ref, dot a b true h = (Raise e, h') -> h' = h
    & forall b : ref, __imatmul__ a b h = (Raise e, h') -> h' = h].
Proof.
have dot_atomic b : dot a b true h = (Raise e, h') -> h' = h.
  rewrite /dot /bind /getattr /read /lift /=.
  by case: (einsum_lij_ljk _ _) => [z|e'] //= [_ <-].
split=> // [o other|b].
- have [op [_ ->]] := methodE o.
  rewrite /inplace_op /bind /getattr /read /assert /lift /ufunc_inplace.
  case: other => [b|x|y] //=.
    by case: eqP => _ /=; [case: ifP => _ // [_ <-] | case=> _ <-].
  by case: ifP => _ // [_ <-].
- rewrite /__imatmul__ /bind /getattr /assert /=.
  by case: eqP => _ /=; [exact: dot_atomic | case=> _ <-].
Qed.

(** X6: an operand whose broadcast enlarges the result is refused by the
    in-place operators ([ValueError], nothing written) but accepted by the
    non-mutating ones, which then return an instance with the rank and
    length of [a] over a buffer of the larger shape. *)
Theorem enlarging_operand (h : heap) (a : ref) (o : arith) (y : ndarray)
    (s : nat * nat * nat) :
  broadcast_shape (shape (buffer h a)) (shape y) = Some s ->
  s != shape (buffer h a) ->
  imethod o a (OfArray y) h = (Raise ValueError, h) /\
  exists (c : ref) (h' : heap),
    [/\ method o a (OfArray y) h = (Return c, h'),
        tags (instance h' c) = tags (instance h a)
      & shape (buffer h' c) = s].
Proof.
move=> bc ne_s; have [op [-> ->]] := methodE o; split.
  rewrite /inplace_op /bind /getattr /read /lift /ufunc_inplace /=.
  by rewrite -/(buffer h a) bc (inj_eq Some_inj) (negbTE ne_s).
rewrite /binary_op /bind /getattr /read /lift /ufunc /= -/(buffer h a) bc /=.
do 2!eexists; split; first by [].
  by rewrite instance_last.
by rewrite buffer_last.
Qed.

(** X7: addition and multiplication of two MatrixArrays commute on the
    buffers: whenever [a + b] (or [a * b]) returns, so does [b + a] (or
    [b * a]), and the two results hold the same array. *)
Theorem add_mul_commute (h : heap) (a b : ref) (o : arith) (c : ref)
    (h1 : heap) :
  commutes o ->
  method o a (OfMatrixArray b) h = (Return c, h1) ->
  exists (c' : ref) (h2 : heap),
    method o b (OfMatrixArray a) h = (Return c', h2) /\
    same_array (buffer h1 c) (buffer h2 c').
Proof.
move=> add_or_mul.
have [op [opC [-> _]]]: exists op : F -> F -> F,
    commutative op /\ method o = binary_op op /\ imethod o = inplace_op op.
  by case: o add_or_mul => // _; eexists; split;
     [exact: addrC | | exact: mulrC | ].
rewrite {1}/binary_op /bind /getattr /read /assert /lift /ufunc /=.
rewrite -!/(buffer h _).
case: eqP => //= eq_sp; case bc: (broadcast_shape _ _) => [s|] //= [<- <-].
have run: binary_op op b (OfMatrixArray a) h =
    (Return (size (objs h)),
     Heap (rcons (objs h)
             (Instance (rank (instance h b)) (length (instance h b))
                (size (arrs h)) (space (instance h b))))
          (rcons (arrs h)
             (NDArray s (elementwise op (buffer h b) (buffer h a))))).
  rewrite /binary_op /bind /getattr /read /assert /lift /ufunc /=.
  by rewrite -!/(buffer h _) eq_sp eqxx /= broadcast_shapeC bc.
do 2!eexists; split; first exact: run.
rewrite !buffer_last; split=> //= m i j _ _ _.
by rewrite /elementwise opC.
Qed.

(** X8: [a += b] followed by [a -= b] gives [a] back its contents when the
    two instances have buffers of their own; when they share one buffer
    (as [a] and [a] itself do) the same two steps leave zeros everywhere. *)
Theorem iadd_isub_round_trip (h : heap) (a b : ref) :
  let da := data (instance h a) in
  let db := data (instance h b) in
  (da < size (arrs h))%N ->
  space (instance h a) = space (instance h b) ->
  shape (buffer h b) = shape (buffer h a) ->
  exists h1 h2 : heap,
    [/\ __iadd__ a (OfMatrixArray b) h = (Return a, h1),
        __isub__ a (OfMatrixArray b) h1 = (Return a, h2),
        da != db -> same_array (buffer h2 a) (buffer h a)
      & da = db -> same_array (buffer h2 a) (zeros (shape (buffer h a)))].
Proof.
move=> da db; rewrite {}/da {}/db => lt_d eq_sp sh_b.
set da := data (instance h a).
have valid: valid_operand h a (OfMatrixArray b) by exact: valid_same_shape.
have run1 := inplace_op_run +%R valid.
move: run1; set z1 := NDArray _ _; set h1 := Heap _ _ => run1.
have buf1 x : buffer h1 x =
    if data (instance h x) == da then z1 else buffer h x.
  by rewrite /buffer /array /instance /= nth_update lt_d andbT.
have valid1: valid_operand h1 a (OfMatrixArray b).
  apply: valid_same_shape => //; rewrite !buf1 eqxx.
  by case: ifP => _.
have run2 := inplace_op_run (fun x y => x - y) valid1.
move: run2; set z2 := NDArray _ _; set h2 := Heap _ _ => run2.
have buf2: buffer h2 a = z2.
  by rewrite /buffer /array /instance /= nth_update eqxx size_update lt_d.
have sh1: shape (buffer h1 a) = shape (buffer h a) by rewrite buf1 eqxx.
exists h1, h2; split=> //; rewrite buf2 /z2.
- move=> ne_d; split; rewrite /= sh1 // => m i j lt_m lt_i lt_j.
  rewrite /result_items /elementwise !buf1 eqxx eq_sym (negbTE ne_d).
  rewrite !broadcast_item_in ?sh_b //=.
  by rewrite /elementwise !broadcast_item_in ?sh_b // addrK.
- move=> eq_d; split; rewrite /= sh1 // => m i j lt_m lt_i lt_j.
  by rewrite /result_items /elementwise !buf1 -eq_d eqxx subrr.
Qed.

(** ** More on the batched product *)

Lemma einsum_run (x y : ndarray) (l r : nat) :
  shape x = (l, r, r) -> shape y = (l, r, r) ->
  einsum_lij_ljk x y =
  Return (NDArray (l, r, r)
            (fun m p q => \sum_(0 <= t < r) item x m p t * item y m t q)).
Proof. exact: einsum_same. Qed.

Lemma dot_run (h : heap) (a b : ref) (l r : nat) :
  shape (buffer h a) = (l, r, r) -> shape (buffer h b) = (l, r, r) ->
  let o := instance h a in
  exists z : ndarray,
    [/\ dot a b false h =
          (Return (size (objs h)),
           Heap (rcons (objs h)
                   (Instance (rank o) (length o) (size (arrs h)) (space o)))
                (rcons (arrs h) z)),
        dot a b true h =
          (Return a,
           Heap (update (objs h) a
                   (Instance (rank o) (length o) (size (arrs h)) (space o)))
                (rcons (arrs h) z)),
        shape z = (l, r, r)
      & forall m, mx_of r (item z m) =
          mx_of r (item (buffer h a) m) *m mx_of r (item (buffer h b) m)].
Proof.
move=> sh_a sh_b o; have ein := einsum_run sh_a sh_b.
eexists; split; first exact: dot_falseE ein.
- by rewrite /dot /bind /getattr /read /lift /= -!/(buffer h _) ein.
- by [].
- by move=> m; rewrite /= einsum_mulmx.
Qed.

Lemma buffer_old (os : seq MatrixArray) (xs : seq ndarray) (o : MatrixArray)
    (z : ndarray) (x : ref) :
  (x < size os)%N -> (data (nth no_instance os x) < size xs)%N ->
  buffer (Heap (rcons os o) (rcons xs z)) x = buffer (Heap os xs) x.
Proof.
by move=> lt_x lt_d; rewrite /buffer instance_old // array_old.
Qed.

Lemma same_array_mx (x y : ndarray) (l r : nat) :
  shape x = (l, r, r) -> shape y = (l, r, r) ->
  (forall m, (m < l)%N -> mx_of r (item x m) = mx_of r (item y m)) ->
  same_array x y.
Proof.
move=> sh_x sh_y eq_mx; split; rewrite sh_x //= => m i j lt_m lt_i lt_j.
by rewrite (mx_of_entry _ lt_i lt_j) eq_mx // -mx_of_entry.
Qed.

(** X9: [dot(other, inplace=True)] does not write into the buffer of
    [self]: it binds the [data] slot to a new array holding the product (the
    array that [dot(other)] returns), and every array that existed keeps its
    contents, so an instance that shared the old buffer still reads the old
    entries.  With equal spaces [@] and [@=] are [dot] and
    [dot(inplace=True)]. *)
Theorem dot_inplace_rebinds (h : heap) (a b : ref) (l r : nat) :
  (a < size (objs h))%N ->
  shape (buffer h a) = (l, r, r) -> shape (buffer h b) = (l, r, r) ->
  exists (c : ref) (h1 h2 : heap),
    [/\ dot a b false h = (Return c, h1) /\ dot a b true h = (Return a, h2),
        buffer h2 a = buffer h1 c,
        data (instance h2 a) = size (arrs h) /\
        tags (instance h2 a) = tags (instance h a),
        (forall d, (d < size (arrs h))%N -> array h2 d = array h d) /\
        (forall x, x != a -> instance h2 x = instance h x)
      & space (instance h a) = space (instance h b) ->
        __matmul__ a b h = (Return c, h1) /\
        __imatmul__ a b h = (Return a, h2)].
Proof.
move=> lt_a sh_a sh_b; have [z [run1 run2 _ _]] := dot_run sh_a sh_b.
move: run1 run2; set h1 := Heap _ _; set h2 := Heap _ _ => run1 run2.
have inst2: instance h2 a =
    Instance (rank (instance h a)) (length (instance h a)) (size (arrs h))
             (space (instance h a)).
  by rewrite /instance /= nth_update eqxx lt_a.
exists (size (objs h)), h1, h2; split=> //.
- by rewrite /buffer inst2 /= /h2 array_last /h1 instance_last /= array_last.
- by rewrite inst2.
- split=> [d lt_d|x ne_x]; first by rewrite /h2 array_old.
  by rewrite /instance /= nth_update (negbTE ne_x).
- move=> eq_sp; rewrite /__matmul__ /__imatmul__ /bind /getattr /assert /=.
  by rewrite eq_sp eqxx /= run1 run2.
Qed.

(** X10: the batched product is associative: on three instances whose
    buffers have shape [(l, r, r)], [(a.dot(b)).dot(c)] and
    [a.dot(b.dot(c))] both return, and their results hold the same array. *)
Theorem dot_associative (h : heap) (a b c : ref) (l r : nat) :
  let valid x :=
    [&& (x < size (objs h))%N, (data (instance h x) < size (arrs h))%N
      & shape (buffer h x) == (l, r, r)] in
  valid a -> valid b -> valid c ->
  exists (ab abc bc abc' : ref) (h1 h2 h1' h2' : heap),
    [/\ dot a b false h = (Return ab, h1),
        dot ab c false h1 = (Return abc, h2),
        dot b c false h = (Return bc, h1'),
        dot a bc false h1' = (Return abc', h2')
      & same_array (buffer h2 abc) (buffer h2' abc')].
Proof.
move=> valid /and3P[lt_a lt_da /eqP sh_a] /and3P[lt_b lt_db /eqP sh_b].
case/and3P=> lt_c lt_dc /eqP sh_c.
have [z1 [run1 _ sh_1 mx_1]] := dot_run sh_a sh_b.
move: run1; set h1 := Heap _ _ => run1.
have buf1: buffer h1 (size (objs h)) = z1 by rewrite buffer_last.
have buf1c: buffer h1 c = buffer h c by rewrite buffer_old.
have [z2 [run2 _ sh_2 mx_2]] : exists z : ndarray,
    [/\ dot (size (objs h)) c false h1 =
          (Return (size (objs h1)),
           Heap (rcons (objs h1)
                   (Instance (rank (instance h1 (size (objs h))))
                      (length (instance h1 (size (objs h))))
                      (size (arrs h1)) (space (instance h1 (size (objs h))))))
                (rcons (arrs h1) z)), True, shape z = (l, r, r)
      & forall m, mx_of r (item z m) =
          mx_of r (item z1 m) *m mx_of r (item (buffer h c) m)].
  have [] := @dot_run h1 (size (objs h)) c l r; rewrite ?buf1 ?buf1c //.
  by move=> z [run _ sh_z mx_z]; exists z.
have [z3 [run3 _ sh_3 mx_3]] := dot_run sh_b sh_c.
move: run3; set h1' := Heap _ _ => run3.
have buf3: buffer h1' (size (objs h)) = z3 by rewrite buffer_last.
have buf3a: buffer h1' a = buffer h a by rewrite buffer_old.
have [z4 [run4 _ sh_4 mx_4]] : exists z : ndarray,
    [/\ dot a (size (objs h)) false h1' =
          (Return (size (objs h1')),
           Heap (rcons (objs h1')
                   (Instance (rank (instance h1' a)) (length (instance h1' a))
                      (size (arrs h1')) (space (instance h1' a))))
                (rcons (arrs h1') z)), True, shape z = (l, r, r)
      & forall m, mx_of r (item z m) =
          mx_of r (item (buffer h a) m) *m mx_of r (item z3 m)].
  have [] := @dot_run h1' a (size (objs h)) l r; rewrite ?buf3 ?buf3a //.
  by move=> z [run _ sh_z mx_z]; exists z.
do 8!eexists; split; [exact: run1 | exact: run2 | exact: run3 | exact: run4|].
rewrite !buffer_last; apply: (same_array_mx sh_2 sh_4) => m _.
by rewrite mx_2 mx_1 mx_4 mx_3 mulmxA.
Qed.

(** ** More on inversion *)

Lemma fun_of_mxE (n : nat) (A : 'M[F]_n) (i j : nat)
    (lt_i : (i < n)%N) (lt_j : (j < n)%N) :
  fun_of_mx A i j = A (Ordinal lt_i) (Ordinal lt_j).
Proof. by rewrite /fun_of_mx !insubT. Qed.

Lemma for_each_cat (s1 s2 : seq nat) (body : nat -> M unit) (h : heap) :
  for_each (s1 ++ s2) body h = (for_each s1 body ;; for_each s2 body) h.
Proof.
elim: s1 h => [|i s1 IHs] h //=; rewrite /bind.
by case: (body i h) => [[[]|e] h1] //; rewrite IHs.
Qed.

Lemma invert_loop_inplace (a : ref) (l r : nat) (x : ndarray)
    (s : seq nat) (h : heap) :
  let d := data (instance h a) in
  (d < size (arrs h))%N -> shape (array h d) = (l, r, r) -> uniq s ->
  (forall m, m \in s -> item (array h d) m = item x m) ->
  all (fun m => (m < l)%N && (mx_of r (item x m) \in unitmx)) s ->
  exists y : ndarray,
    [/\ for_each s (invert_slice a d) h =
          (Return tt, Heap (objs h) (update (arrs h) d y)),
        shape y = (l, r, r)
      & forall m, item y m =
          if m \in s then inverse_of x r m else item (array h d) m].
Proof.
elim: s h => [|i s IHs] h d lt_d sh_d /=.
  move=> _ _ _; exists (array h d); split=> //.
  by rewrite /ret /array update_nth; case: (h).
case/andP=> notin_i uniq_s same_x /andP[/andP[lt_i unit_i] all_s].
have same_i: item (array h d) i = item x i by rewrite same_x ?mem_head.
have sh_a: shape (buffer h a) = (l, r, r) by exact: sh_d.
have unit_a: mx_of r (item (buffer h a) i) \in unitmx.
  by rewrite /buffer -/d same_i.
rewrite /bind (@invert_slice_run a d l r) //.
set y1 := NDArray _ _; set h1 := Heap _ _.
have arr1: array h1 d = y1 by rewrite /array /= nth_update eqxx lt_d.
have [] := IHs h1.
- by rewrite /= size_update.
- by rewrite [array _ _]arr1.
- by [].
- move=> m in_m; rewrite [array _ _]arr1 /=.
  case: eqP notin_i => [<-|_ _]; first by rewrite in_m.
  by rewrite same_x // in_cons in_m orbT.
- by [].
move=> y [-> sh_y item_y]; exists y; split=> //=; first by rewrite update_update.
move=> m; rewrite item_y [array _ _]arr1 in_cons /=.
case: (eqVneq m i) => [->|_] //=.
by rewrite (negbTE notin_i) /buffer -/d /inverse_of same_i.
Qed.

Lemma invert_true_run (h : heap) (a : ref) :
  let o := instance h a in
  (data o < size (arrs h))%N ->
  shape (buffer h a) = (length o, rank o, rank o) ->
  (forall m, (m < length o)%N ->
     mx_of (rank o) (item (buffer h a) m) \in unitmx) ->
  exists y : ndarray,
    [/\ invert a true h =
          (Return a, Heap (objs h) (update (arrs h) (data o) y)),
        shape y = (length o, rank o, rank o)
      & forall m, item y m =
          if (m < length o)%N then inverse_of (buffer h a) (rank o) m
          else item (buffer h a) m].
Proof.
move=> o lt_d sh_a unit_a.
have [] := @invert_loop_inplace a (length o) (rank o) (buffer h a)
             (range (length o)) h lt_d sh_a (iota_uniq _ _).
- by [].
- by apply/allP=> m; rewrite mem_iota /= add0n => lt_m; rewrite lt_m unit_a.
move=> y [loop sh_y item_y]; exists y; split=> //.
  by rewrite /invert /bind /getattr /= -/o loop.
by move=> m; rewrite item_y mem_iota /= add0n.
Qed.


(** X12: inverting twice gives the array back: on invertible slices
    [a.invert().invert()] returns, and its buffer holds the entries of the
    buffer of [a]. *)
Theorem invert_involutive (h : heap) (a : ref) :
  let o := instance h a in
  (data o < size (arrs h))%N ->
  shape (buffer h a) = (length o, rank o, rank o) ->
  (forall m, (m < length o)%N ->
     mx_of (rank o) (item (buffer h a) m) \in unitmx) ->
  exists (b : ref) (h1 : heap) (c : ref) (h2 : heap),
    [/\ invert a false h = (Return b, h1),
        invert b false h1 = (Return c, h2)
      & same_array (buffer h2 c) (buffer h a)].
Proof.
move=> o lt_d sh_a unit_a.
have [y1 [run1 sh_1 item_1]] := invert_false_run lt_d sh_a unit_a.
move: run1; set h1 := Heap _ _ => run1.
have inst_b: instance h1 (size (objs h)) =
    Instance (rank o) (length o) (size (arrs h)) (space o).
  by rewrite instance_last.
have buf_b: buffer h1 (size (objs h)) = y1 by rewrite buffer_last.
have [] := @invert_false_run h1 (size (objs h)); rewrite ?inst_b ?buf_b //=.
- by rewrite size_rcons.
- move=> m lt_m; rewrite item_1 // /inverse_of mx_of_fun_of_mx.
  by rewrite unitmx_inv unit_a.
move=> y2 [run2 sh_2 item_2].
do 4!eexists; split; [exact: run1 | exact: run2 |].
rewrite buffer_last; split; rewrite sh_2 ?sh_a //= => m i j lt_m lt_i lt_j.
rewrite item_2 // /inverse_of item_1 // /inverse_of mx_of_fun_of_mx invmxK.
by rewrite (fun_of_mxE _ lt_i lt_j) mxE.
Qed.

Lemma range_split (k l : nat) :
  (k < l)%N -> range l = range k ++ k :: iota k.+1 (l - k.+1).
Proof.
by move=> lt_k; rewrite /range -{1}(subnKC (ltnW lt_k)) iotaD add0n -subnSK.
Qed.

Lemma invert_slice_singular (a : ref) (d : loc) (l r k : nat) (h : heap) :
  shape (buffer h a) = (l, r, r) -> (k < l)%N ->
  mx_of r (item (buffer h a) k) \notin unitmx ->
  invert_slice a d k h = (Raise LinAlgError, h).
Proof.
move=> sh_a lt_k /negbTE sing.
rewrite /invert_slice /bind /getattr /read /lift /= -/(buffer h a).
by rewrite /getslice sh_a lt_k /= /linalg_inv /= eqxx sing.
Qed.

Lemma inv_sliceE (x : ndarray) (l r m : nat) :
  shape x = (l, r, r) -> (m < l)%N ->
  inv_slice x m =
  if mx_of r (item x m) \in unitmx
  then Return (NDArray2 (r, r) (inverse_of x r m)) else Raise LinAlgError.
Proof.
by move=> sh_x lt_m; rewrite /inv_slice /getslice sh_x lt_m /linalg_inv /= eqxx.
Qed.

(** X13: inversion stops at the first slice that [np.linalg.inv] refuses
    (in exact arithmetic, the first singular one) with [LinAlgError].
    [invert()] has then changed no instance and no array that existed;
    [invert(inplace=True)] has already overwritten each slice before that
    one with what [np.linalg.inv] returned for it, and leaves the refused
    slice and those after it as they were. *)
Theorem invert_singular (h : heap) (a : ref) (k : nat) :
  let o := instance h a in
  (data o < size (arrs h))%N ->
  shape (buffer h a) = (length o, rank o, rank o) ->
  (k < length o)%N ->
  (forall m, (m < k)%N -> is_return (inv_slice (buffer h a) m)) ->
  inv_slice (buffer h a) k = Raise LinAlgError ->
  (exists h1 : heap,
     [/\ invert a false h = (Raise LinAlgError, h1), objs h1 = objs h
       & forall d, (d < size (arrs h))%N -> array h1 d = array h d]) /\
  (exists h2 : heap,
     [/\ invert a true h = (Raise LinAlgError, h2), objs h2 = objs h,
         shape (buffer h2 a) = shape (buffer h a),
         forall m, (m < k)%N ->
           inv_slice (buffer h a) m =
           Return (NDArray2 (rank o, rank o) (item (buffer h2 a) m))
       & forall m, (k <= m)%N ->
           item (buffer h2 a) m = item (buffer h a) m]).
Proof.
move=> o lt_d sh_a lt_k ret_a raise_k.
have unit_a m : (m < k)%N -> mx_of (rank o) (item (buffer h a) m) \in unitmx.
  move=> lt_m; have := ret_a m lt_m.
  by rewrite (inv_sliceE sh_a (ltn_trans lt_m lt_k)); case: ifP.
have sing: mx_of (rank o) (item (buffer h a) k) \notin unitmx.
  by move: raise_k; rewrite (inv_sliceE sh_a lt_k); case: ifP.
have inv_a m : (m < k)%N ->
    inv_slice (buffer h a) m =
    Return (NDArray2 (rank o, rank o) (inverse_of (buffer h a) (rank o) m)).
  by move=> lt_m; rewrite (inv_sliceE sh_a (ltn_trans lt_m lt_k)) unit_a.
move: inv_a {ret_a raise_k}.
set l := length o in sh_a lt_k *; set r := rank o in sh_a unit_a sing *.
set x := buffer h a in sh_a unit_a sing * => inv_a.
have all_k: all (fun m => (m < l)%N && (mx_of r (item x m) \in unitmx))
                (range k).
  apply/allP=> m; rewrite mem_iota /= add0n => lt_m.
  by rewrite (ltn_trans lt_m lt_k) unit_a.
split.
- pose h0 := Heap (objs h) (rcons (arrs h) x).
  have [] := @invert_loop_run a (size (arrs h)) l r x (range k) h0.
  + by rewrite /buffer /instance /= -/(instance h a) array_old.
  + by [].
  + by rewrite /instance /= -/(instance h a) (ltn_eqF lt_d).
  + by rewrite /= size_rcons.
  + by rewrite array_last.
  + by [].
  move=> y [loop sh_y item_y]; exists (Heap (objs h) (rcons (arrs h) y)).
  split=> //; last by move=> d lt; rewrite array_old.
  rewrite /invert /bind /getattr /read /= -/(buffer h a) -/x -/h0 -/l.
  rewrite (range_split lt_k) for_each_cat /bind loop /= update_rcons /bind.
  rewrite (@invert_slice_singular a _ l r) //.
    by rewrite /buffer /instance /= -/(instance h a) array_old.
  by rewrite /buffer /instance /= -/(instance h a) array_old.
- have [] := @invert_loop_inplace a l r x (range k) h lt_d sh_a (iota_uniq _ _).
  + by [].
  + by [].
  move=> y [loop sh_y item_y].
  have buf_y: buffer (Heap (objs h) (update (arrs h) (data o) y)) a = y.
    by rewrite /buffer /array /instance /= nth_update eqxx lt_d.
  have item_k: item y k = item x k.
    by rewrite item_y mem_iota /= add0n ltnn.
  exists (Heap (objs h) (update (arrs h) (data o) y)); split=> //.
  + rewrite /invert /bind /getattr /= -/o -/l.
    rewrite (range_split lt_k) for_each_cat /bind loop /= /bind.
    by rewrite (@invert_slice_singular a _ l r) ?buf_y ?item_k.
  + by rewrite buf_y sh_y.
  + by move=> m lt_m; rewrite buf_y inv_a // item_y mem_iota /= add0n lt_m.
  + by move=> m le_m; rewrite buf_y item_y mem_iota /= add0n ltnNge le_m.
Qed.

(** ** More on column iteration *)

Lemma itercolumn_run (h : heap) (a : ref) (l : nat) :
  let r := rank (instance h a) in
  shape (buffer h a) = (l, r, r) ->
  itercolumn a h =
  (Return [seq (ij, [seq item (buffer h a) m ij.1 ij.2 | m <- iota 0 l])
          | ij <- upper r], h).
Proof.
move=> r sh_a; rewrite /itercolumn /bind /= -/r.
pose col (ij : nat * nat) :=
  [seq item (buffer h a) m ij.1 ij.2 | m <- iota 0 l].
rewrite (@for_yield_pure _ _ _ _
           (fun ij => if (ij.1 <= ij.2)%N then [:: (ij, col ij)] else [::])).
  case=> i j /allpairsP[[i' j'] /= [in_i in_j [-> ->]]].
  move: in_i in_j; rewrite !mem_iota /= !add0n => lt_i lt_j.
  case: ifP => // _.
  rewrite /bind /getattr /read /lift /= -/(buffer h a).
  by rewrite /column sh_a lt_i lt_j.
by rewrite (@flatten_guard _ _ (fun ij => ij.1 <= ij.2)%N
              (fun ij => (ij, col ij))).
Qed.

(** X14: the pairs that [itercolumn] yields determine a symmetric array:
    two instances of one rank whose symmetric buffers have one shape and
    whose generators yield the same pairs hold the same array. *)
Theorem itercolumn_determines (h h' : heap) (a b : ref) (l r : nat) :
  rank (instance h a) = r -> rank (instance h' b) = r ->
  shape (buffer h a) = (l, r, r) -> shape (buffer h' b) = (l, r, r) ->
  symmetric (buffer h a) -> symmetric (buffer h' b) ->
  (itercolumn a h).1 = (itercolumn b h').1 ->
  same_array (buffer h a) (buffer h' b).
Proof.
move=> rank_a rank_b sh_a sh_b sym_a sym_b.
have run_a := @itercolumn_run h a l; rewrite rank_a in run_a.
have run_b := @itercolumn_run h' b l; rewrite rank_b in run_b.
rewrite (run_a sh_a) (run_b sh_b) => -[eq_ys].
pose col (x : ndarray) (ij : nat * nat) :=
  [seq item x m ij.1 ij.2 | m <- iota 0 l].
have eq_col: {in upper r, forall ij, (ij, col (buffer h a) ij) =
                                      (ij, col (buffer h' b) ij)}.
  by apply/(@eq_in_map _ _ (fun ij => (ij, col (buffer h a) ij))
              (fun ij => (ij, col (buffer h' b) ij)) (upper r)); exact: eq_ys.
have upper_eq m i j : (m < l)%N -> (i <= j < r)%N ->
    item (buffer h a) m i j = item (buffer h' b) m i j.
  move=> lt_m le_ij; have in_ij: (i, j) \in upper r by rewrite mem_upper.
  have [eq_c] := eq_col _ in_ij.
  have: {in iota 0 l, (fun m => item (buffer h a) m i j) =1
                      (fun m => item (buffer h' b) m i j)}.
    by apply/(@eq_in_map _ _ (fun m => item (buffer h a) m i j)
                (fun m => item (buffer h' b) m i j) (iota 0 l)); exact: eq_c.
  by apply; rewrite mem_iota.
split; rewrite sh_a //= => m i j lt_m lt_i lt_j.
have [le_ij|/ltnW le_ji] := leqP i j; first by rewrite upper_eq // le_ij.
rewrite sym_a ?sh_a // [RHS]sym_b ?sh_b //.
by rewrite upper_eq // le_ji.
Qed.

(** X15: in exact arithmetic, inversion keeps a stack symmetric and
    invertible: if every slice of [a] is symmetric and invertible, then
    every slice of the result of [invert()], and every slice that
    [invert(inplace=True)] leaves in the buffer of [a], is symmetric and
    invertible again. *)
Theorem invert_keeps_symmetric (h : heap) (a : ref) :
  let o := instance h a in
  (data o < size (arrs h))%N ->
  shape (buffer h a) = (length o, rank o, rank o) ->
  (forall m, (m < length o)%N ->
     mx_of (rank o) (item (buffer h a) m) \in unitmx) ->
  symmetric (buffer h a) ->
  exists (c : ref) (h1 h2 : heap),
    [/\ invert a false h = (Return c, h1),
        symmetric (buffer h1 c) /\
        (forall m, (m < length o)%N ->
           mx_of (rank o) (item (buffer h1 c) m) \in unitmx),
        invert a true h = (Return a, h2)
      & symmetric (buffer h2 a) /\
        (forall m, (m < length o)%N ->
           mx_of (rank o) (item (buffer h2 a) m) \in unitmx)].
Proof.
move=> o lt_d sh_a unit_a sym_a.
have unit_inv m : (m < length o)%N ->
    mx_of (rank o) (inverse_of (buffer h a) (rank o) m) \in unitmx.
  by move=> lt_m; rewrite /inverse_of mx_of_fun_of_mx unitmx_inv unit_a.
have sym_inv m i j : (m < length o)%N -> (i < rank o)%N -> (j < rank o)%N ->
    inverse_of (buffer h a) (rank o) m i j =
    inverse_of (buffer h a) (rank o) m j i.
  move=> lt_m lt_i lt_j; rewrite /inverse_of.
  set A := mx_of _ _; have symA: A^T = A.
    apply/matrixP=> p q; rewrite !mxE sym_a ?sh_a //.
  rewrite (fun_of_mxE _ lt_i lt_j) (fun_of_mxE _ lt_j lt_i).
  by rewrite -[in RHS]symA -trmx_inv mxE.
have [y1 [run1 sh_1 item_1]] := invert_false_run lt_d sh_a unit_a.
have [y2 [run2 sh_2 item_2]] := invert_true_run lt_d sh_a unit_a.
do 3!eexists; split; [exact: run1 | | exact: run2 |].
  rewrite buffer_last; split=> [m i j|m lt_m]; last by rewrite item_1 ?unit_inv.
  by rewrite sh_1 /= => lt_m lt_i lt_j; rewrite !item_1 // sym_inv.
rewrite /buffer /array /instance /= nth_update eqxx lt_d /=.
split=> [m i j|m lt_m]; last by rewrite item_2 lt_m unit_inv.
by rewrite sh_2 /= => lt_m lt_i lt_j; rewrite !item_2 lt_m sym_inv.
Qed.

(** ** The textual representation *)

Lemma digits_string_of_uint (d : Decimal.uint) :
  digits (DecimalString.NilEmpty.string_of_uint d).
Proof. by elim: d. Qed.

Lemma digits_format_d (n : nat) : digits (format_d n).
Proof.
rewrite /format_d /DecimalString.NilZero.string_of_uint.
by case: (Nat.to_uint n) => *; rewrite ?digits_string_of_uint.
Qed.

Lemma format_d_inj : injective format_d.
Proof.
move=> n n' eq_s; apply: DecimalNat.Unsigned.to_uint_inj.
have nonnil k : Nat.to_uint k <> Decimal.Nil.
  rewrite -[k]DecimalNat.Unsigned.of_to DecimalNat.Unsigned.to_of.
  exact: DecimalFacts.unorm_nonnil.
have := congr1 DecimalString.NilZero.uint_of_string eq_s.
by rewrite /format_d !DecimalString.NilZero.usu //; case.
Qed.

Lemma append_digits_inj (s1 s2 t1 t2 : string) (c1 c2 : Ascii.ascii) :
  digits s1 -> digits s2 -> ~~ digit c1 -> ~~ digit c2 ->
  String.append s1 (String c1 t1) = String.append s2 (String c2 t2) ->
  s1 = s2 /\ t1 = t2.
Proof.
elim: s1 s2 => [|d1 s1 IHs] [|d2 s2] /=.
- by move=> _ _ _ _ [_ ->].
- by move=> _ /andP[dig _] /negP nd _ [eq_c _]; case: nd; rewrite eq_c.
- by move=> /andP[dig _] _ _ /negP nd [eq_c _]; case: nd; rewrite -eq_c.
- case/andP=> _ dig1 /andP[_ dig2] nd1 nd2 [-> eq_s].
  by have [-> ->] := IHs _ dig1 dig2 nd1 nd2 eq_s.
Qed.

(** X16: the textual representation is read-only and tells rank and length
    apart: it always returns, leaves the heap as it is, and two instances
    with the same representation have the same rank and the same length. *)
Theorem repr_determines (h h' : heap) (a b : ref) :
  (exists s : string, __repr__ a h = (Return s, h)) /\
  ((__repr__ a h).1 = (__repr__ b h').1 ->
   rank (instance h a) = rank (instance h' b) /\
   length (instance h a) = length (instance h' b)).
Proof.
split; first by eexists.
rewrite /__repr__ /bind /getattr /=; case=> eq_s.
have [] := append_digits_inj (digits_format_d _) (digits_format_d _) _ _ eq_s.
- by [].
- by [].
move=> /format_d_inj-> [eq_t]; split=> //.
have [] := append_digits_inj (digits_format_d _) (digits_format_d _) _ _ eq_t.
- by [].
- by [].
by move=> /format_d_inj->.
Qed.

(** ** Columns of an arithmetic result *)

Lemma method_operation (o : arith) :
  method o = binary_op (operation o) /\ imethod o = inplace_op (operation o).
Proof. by case: o. Qed.

(** X17: arithmetic acts column by column: for two instances of one space
    whose buffers have shape [(l, r, r)], the column [(i, j)] of [a op b]
    is made of the entries of the columns [(i, j)] of [a] and of [b],
    combined by [op] position by position. *)
Theorem getitem_of_arith (h : heap) (a b : ref) (o : arith) (i j l r : nat) :
  space (instance h a) = space (instance h b) ->
  shape (buffer h a) = (l, r, r) -> shape (buffer h b) = (l, r, r) ->
  (i < r)%N -> (j < r)%N ->
  exists (c : ref) (h1 : heap) (xs ys : seq F),
    [/\ method o a (OfMatrixArray b) h = (Return c, h1),
        __getitem__ a (i, j) h = (Return xs, h),
        __getitem__ b (i, j) h = (Return ys, h)
      & __getitem__ c (i, j) h1 =
          (Return [seq operation o p.1 p.2 | p <- zip xs ys], h1)].
Proof.
move=> eq_sp sh_a sh_b lt_i lt_j; have [-> _] := method_operation o.
have valid: valid_operand h a (OfMatrixArray b).
  by apply: valid_same_shape => //; rewrite sh_a.
rewrite (binary_op_run _ valid) !getitemE /column sh_a sh_b lt_i lt_j.
do 4!eexists; split; [by [] | by [] | by [] |].
rewrite getitemE buffer_last /column /= lt_i lt_j /=.
rewrite zip_map -map_comp; congr (Return _, _).
apply/eq_in_map=> m; rewrite mem_iota /= add0n => lt_m.
by rewrite /elementwise !broadcast_item_in ?sh_a ?sh_b.
Qed.

End TypyPRISM.

(** * Concrete runs *)

Section Runs.

Local Notation Q := rat.

Local Notation diag := (diag Q).
Local Notation h0 := (h0 Q).
Local Notation k0 := (k0 Q).
Local Notation k1 := (k1 Q).

Example run_getitem :
  __getitem__ 0%N (1, 1)%N h0 = (Return [:: 2%:R; 3%:R], h0).
Proof. by []. Qed.

Example run_itercolumn :
  itercolumn 0%N h0 =
  (Return [:: ((0, 0)%N, [:: 2%:R; 3%:R]); ((0, 1)%N, [:: 0; 0]);
              ((1, 1)%N, [:: 2%:R; 3%:R])], h0).
Proof. by []. Qed.

Example run_setitem :
  __getitem__ 1%N (1, 0)%N
    (__setitem__ 1%N (0, 1)%N (Seq [:: 3%:R; 5%:R]) h0).2 =
  (Return [:: 3%:R; 5%:R],
   (__setitem__ 1%N (0, 1)%N (Seq [:: 3%:R; 5%:R]) h0).2).
Proof. by []. Qed.

Example run_setitem_shared :
  __getitem__ 2%N (0, 1)%N
    (__setitem__ 1%N (0, 1)%N (Scalar 1) h0).2 =
  (Return [:: 1; 1], (__setitem__ 1%N (0, 1)%N (Scalar 1) h0).2).
Proof. by []. Qed.

Example run_add_mismatch :
  __add__ 0%N (OfMatrixArray Q 2) h0 = (Raise (AssertionError SpaceError), h0).
Proof. by []. Qed.

Example run_einsum_stretch :
  exists z : ndarray Q,
    einsum_lij_ljk (zeros Q (1, 2, 2)%N) diag = Return z /\
    shape z = (2, 2, 2)%N.
Proof. by eexists. Qed.

Example run_einsum_refused :
  einsum_lij_ljk (zeros Q (3, 2, 2)%N) diag = Raise ValueError.
Proof. by []. Qed.

Example run_dot_mismatch : is_return (dot 0%N 2%N false h0).1.
Proof. by []. Qed.

Example run_invert_singular :
  (invert 1%N false h0).1 = Raise LinAlgError.
Proof.
rewrite /invert /bind /getattr /read /= /bind /invert_slice /bind /=.
rewrite /lift /getslice /= /linalg_inv /=.
have ->: mx_of 2 (fun _ _ => 0 : Q) = 0 by apply/matrixP=> i j; rewrite !mxE.
by rewrite unitmxE det0 unitr0.
Qed.

Lemma diag_unit (m : nat) : mx_of 2 (item diag m) \in unitmx.
Proof.
have ->: mx_of 2 (item diag m) = (m + 2)%:R%:M.
  by apply/matrixP=> i j; rewrite !mxE /= -val_eqE; case: (_ == _).
by rewrite unitmxE det_scalar unitfE expf_neq0 // Num.Theory.pnatr_eq0 addn2.
Qed.

Lemma setitem_symmetric_witness :
  exists h' : heap Q,
    [/\ __setitem__ 0%N (0, 1)%N (Seq [:: 3%:R; 5%:R]) h0 = (Return tt, h'),
        __getitem__ 0%N (0, 1)%N h' = (Return [:: 3%:R; 5%:R], h')
      & __getitem__ 0%N (1, 0)%N h' = (Return [:: 3%:R; 5%:R], h')].
Proof.
have [] // := @setitem_symmetric Q h0 0%N 0%N 1%N (Seq [:: 3%:R; 5%:R]).
by move=> h' [[run get1 get2 _ _] _]; exists h'.
Defined.


Lemma inplace_matches_witness :
  exists (c : ref) (h1 h2 : heap Q),
    [/\ __add__ 0%N (OfMatrixArray Q 1) h0 = (Return c, h1),
        __iadd__ 0%N (OfMatrixArray Q 1) h0 = (Return 0%N, h2)
      & buffer h2 0 = buffer h1 c].
Proof.
have [] // := @inplace_matches Q h0 0%N Add (OfMatrixArray Q 1).
by move=> c [h1 [h2 [run1 run2 eq_buf _ _]]]; exists c, h1, h2.
Defined.

Lemma nonmutating_fresh_witness :
  __add__ 0%N (OfScalar 1) h0 =
    (Return 3%N, (__add__ 0%N (OfScalar 1) h0).2) /\
  [/\ data (instance (__add__ 0%N (OfScalar 1) h0).2 3) = 2%N,
      size (arrs (__add__ 0%N (OfScalar 1) h0).2) = 3%N,
      tags (instance (__add__ 0%N (OfScalar 1) h0).2 3) = tags (instance h0 0)
    & forall z : ndarray Q,
        buffer (write 2%N z (__add__ 0%N (OfScalar 1) h0).2).2 3 = z].
Proof.
split; first by [].
have [[fresh_arith _ _] _] := @nonmutating_fresh Q 0%N.
have [] := fresh_arith Add (OfScalar 1) h0
             (__add__ 0%N (OfScalar 1) h0).2 3%N (erefl _).
by case=> _ _ data_c size_c tags_c _ new_c _; split.
Defined.

Lemma itercolumn_upper_witness :
  exists ys : seq (nat * nat * seq Q),
    itercolumn 0%N h0 = (Return ys, h0) /\ size ys = 3%N.
Proof.
have [] // := @itercolumn_upper Q h0 0%N.
by move=> ys [run [size_ys _]]; exists ys.
Defined.

Lemma invert_dot_identity_witness :
  exists (b : ref) (h1 : heap Q) (c : ref) (h2 : heap Q),
    [/\ invert 0%N false h0 = (Return b, h1),
        dot 0%N b false h1 = (Return c, h2)
      & forall m i j, (m < 2)%N -> (i < 2)%N -> (j < 2)%N ->
          item (buffer h2 c) m i j = (i == j)%:R].
Proof.
have [] // := @invert_dot_identity Q h0 0%N.
  by move=> m _; exact: diag_unit.
by move=> b [h1 [c [h2 [run1 run2 _ _ id_c]]]]; exists b, h1, c, h2.
Defined.

Lemma space_fixed_witness :
  (2 < size (objs h0))%N /\
  space (instance (__setitem__ 0%N (0, 1)%N (Scalar 1) h0).2 2) = FourierLike /\
  space (instance (__imatmul__ 0%N 1%N h0).2 2) = FourierLike.
Proof.
split; first by [].
have [set_ [_ [_ [_ [imm _]]]]] := @space_fixed Q h0 2%N isT.
by split; [exact: set_ | exact: imm].
Defined.

Lemma inplace_atomic_witness :
  __iadd__ 0%N (OfMatrixArray Q 2) h0 =
    (Raise (AssertionError SpaceError),
     (__iadd__ 0%N (OfMatrixArray Q 2) h0).2) /\
  (__iadd__ 0%N (OfMatrixArray Q 2) h0).2 = h0 /\
  buffer (__iadd__ 0%N (OfMatrixArray Q 2) h0).2 0 = buffer h0 0.
Proof.
split; first by [].
exact: (@inplace_atomic Q h0 (__iadd__ 0%N (OfMatrixArray Q 2) h0).2 0%N
          SpaceError).1 Add (OfMatrixArray Q 2) (erefl _).
Defined.

Lemma calculate_zeros_witness :
  shapeN k1 = shapeN k0 /\
  calculate (NoIntraState None [::]) k1 = calculate (NoIntraState None [::]) k0.
Proof.
split; first by [].
have := @calculate_zeros Q (NoIntraState None [::]) k0.
by rewrite /calculate /=; case=> _ [_ [_]]; apply.
Defined.

(** ** Runs of the further properties *)

Local Notation heap_half := (heap_half Q).
Local Notation heap_single := (heap_single Q).
Local Notation h0_filled := (h0_filled Q).

Lemma diag_symmetric : symmetric (buffer h0 0).
Proof. by move=> m i j _ _ _ /=; rewrite eq_sym. Qed.

Lemma half_scalar : mx_of 2 (item (buffer heap_half 0) 0) = 2%:R%:M.
Proof. by apply/matrixP=> i j; rewrite !mxE /= -val_eqE; case: (_ == _). Qed.

Lemma half_unit : mx_of 2 (item (buffer heap_half 0) 0) \in unitmx.
Proof. by rewrite half_scalar unitmxE det_scalar unitfE. Qed.

Lemma half_singular : mx_of 2 (item (buffer heap_half 0) 1) \notin unitmx.
Proof.
have ->: mx_of 2 (item (buffer heap_half 0) 1) = 0.
  by apply/matrixP=> i j; rewrite !mxE.
by rewrite unitmxE det0 unitr0.
Qed.

Lemma filled_symmetric : symmetric (buffer h0_filled 1).
Proof. by move=> m [|[|i]] // [|[|j]]. Qed.

Lemma column_access_outcome_witness :
  __getitem__ 0%N (0, 5)%N h0 = (Raise IndexError, h0) /\
  __setitem__ 0%N (0, 5)%N (Scalar 1) h0 = (Raise IndexError, h0).
Proof.
have [get set] :=
  @column_access_outcome Q h0 0%N 0%N 5%N 2%N 2%N (Scalar 1) isT (erefl _).
by split; [exact: get | exact: set].
Defined.

Lemma setitem_keeps_symmetric_witness :
  symmetric (buffer (__setitem__ 0%N (0, 1)%N (Scalar 1) h0).2 0).
Proof.
exact: (@setitem_keeps_symmetric Q h0).2 _ 0%N (0, 1)%N (Scalar 1)
         (erefl _) 0%N diag_symmetric.
Defined.

Lemma init_shares_data_witness :
  exists (b : ref) (h1 h2 : heap Q),
    [/\ __init__ 2 2 (Some 0%N) None h0 = (Return b, h1),
        __setitem__ b (0, 1)%N (Scalar 1) h1 = (Return tt, h2)
      & __getitem__ 0%N (0, 1)%N h2 = (Return [:: 1; 1], h2)].
Proof.
have [] // := @init_shares_data Q h0 0%N 2%N 2%N 0%N 1%N None (Scalar 1).
by move=> b [h1 [h2 [run1 _ run2 get]]]; exists b, h1, h2.
Defined.

Lemma inplace_failure_atomic_witness :
  __iadd__ 0%N (OfArray (zeros Q (3, 2, 2)%N)) h0 =
    (Raise ValueError, (__iadd__ 0%N (OfArray (zeros Q (3, 2, 2)%N)) h0).2) /\
  (__iadd__ 0%N (OfArray (zeros Q (3, 2, 2)%N)) h0).2 = h0.
Proof.
split; first by [].
have [atomic _ _] := @inplace_failure_atomic Q h0
  (__iadd__ 0%N (OfArray (zeros Q (3, 2, 2)%N)) h0).2 0%N ValueError.
exact: atomic Add (OfArray (zeros Q (3, 2, 2)%N)) (erefl _).
Defined.

Lemma enlarging_operand_witness :
  __iadd__ 0%N (OfArray (zeros Q (3, 2, 2)%N)) heap_single =
    (Raise ValueError, heap_single) /\
  exists (c : ref) (h' : heap Q),
    [/\ __add__ 0%N (OfArray (zeros Q (3, 2, 2)%N)) heap_single = (Return c, h'),
        length (instance h' c) = 1%N
      & shape (buffer h' c) = (3, 2, 2)%N].
Proof.
have [] // := @enlarging_operand Q heap_single 0%N Add (zeros Q (3, 2, 2)%N)
                (3, 2, 2)%N.
move=> iadd [c [h' [add [_ len _] sh_c]]]; split; first exact: iadd.
by exists c, h'.
Defined.

Lemma add_mul_commute_witness :
  exists (c' : ref) (h2 : heap Q),
    __add__ 1%N (OfMatrixArray Q 0) h0 = (Return c', h2) /\
    same_array (buffer (__add__ 0%N (OfMatrixArray Q 1) h0).2 3) (buffer h2 c').
Proof.
exact: (@add_mul_commute Q h0 0%N 1%N Add 3%N
          (__add__ 0%N (OfMatrixArray Q 1) h0).2 isT (erefl _)).
Defined.

Lemma iadd_isub_round_trip_witness :
  exists h1 h2 : heap Q,
    [/\ __iadd__ 0%N (OfMatrixArray Q 1) h0 = (Return 0%N, h1),
        __isub__ 0%N (OfMatrixArray Q 1) h1 = (Return 0%N, h2)
      & same_array (buffer h2 0) (buffer h0 0)].
Proof.
have [] // := @iadd_isub_round_trip Q h0 0%N 1%N.
by move=> h1 [h2 [run1 run2 back _]]; exists h1, h2; split=> //; exact: back.
Defined.

Lemma dot_inplace_rebinds_witness :
  exists (c : ref) (h1 h2 : heap Q),
    [/\ dot 0%N 1%N false h0 = (Return c, h1),
        dot 0%N 1%N true h0 = (Return 0%N, h2),
        buffer h2 0 = buffer h1 c
      & array h2 0 = array h0 0].
Proof.
have [] // := @dot_inplace_rebinds Q h0 0%N 1%N 2%N 2%N.
move=> c [h1 [h2 [[run1 run2] eq_buf _ [old _] _]]]; exists c, h1, h2.
by split=> //; exact: old.
Defined.

Lemma dot_associative_witness :
  exists (ab abc bc abc' : ref) (h1 h2 h1' h2' : heap Q),
    [/\ dot 0%N 1%N false h0 = (Return ab, h1),
        dot ab 2%N false h1 = (Return abc, h2),
        dot 1%N 2%N false h0 = (Return bc, h1'),
        dot 0%N bc false h1' = (Return abc', h2')
      & same_array (buffer h2 abc) (buffer h2' abc')].
Proof. exact: (@dot_associative Q h0 0%N 1%N 2%N 2%N 2%N isT isT isT). Defined.


Lemma invert_involutive_witness :
  exists (b : ref) (h1 : heap Q) (c : ref) (h2 : heap Q),
    [/\ invert 0%N false h0 = (Return b, h1),
        invert b false h1 = (Return c, h2)
      & same_array (buffer h2 c) (buffer h0 0)].
Proof.
have [] // := @invert_involutive Q h0 0%N.
  by move=> m _; exact: diag_unit.
by move=> b [h1 [c [h2 run]]]; exists b, h1, c, h2.
Defined.

Lemma invert_singular_witness :
  (invert 0%N false heap_half).1 = Raise LinAlgError /\
  exists h2 : heap Q,
    [/\ invert 0%N true heap_half = (Raise LinAlgError, h2),
        item (buffer heap_half 0) 0 0%N 0%N = 2%:R,
        item (buffer h2 0) 0 0%N 0%N = 2%:R^-1
      & item (buffer h2 0) 1 = item (buffer heap_half 0) 1].
Proof.
have inv_0: inv_slice (buffer heap_half 0) 0 =
    Return (NDArray2 (2, 2)%N (inverse_of (buffer heap_half 0) 2 0)).
  by rewrite (@inv_sliceE Q _ 2 2) // half_unit.
have [] // := @invert_singular Q heap_half 0%N 1%N.
- by case=> // _; rewrite inv_0.
- by rewrite (@inv_sliceE Q _ 2 2) // (negbTE half_singular).
move=> [h1 [run1 _ _]] [h2 [run2 _ _ inv_2 old_2]]; split; first by rewrite run1.
exists h2; split=> //; last exact: old_2.
have [] := etrans (esym (inv_2 0%N isT)) inv_0 => ->.
by rewrite /inverse_of half_scalar invmx_scalar /fun_of_mx !insubT !mxE.
Defined.

Lemma itercolumn_determines_witness :
  data (instance h0 0) != data (instance h0_filled 1) /\
  same_array (buffer h0 0) (buffer h0_filled 1).
Proof.
split; first by [].
apply: (@itercolumn_determines Q h0 h0_filled 0%N 1%N 2%N 2%N) => //.
- exact: diag_symmetric.
- exact: filled_symmetric.
Defined.

Lemma invert_keeps_symmetric_witness :
  exists (c : ref) (h1 h2 : heap Q),
    [/\ invert 0%N false h0 = (Return c, h1), symmetric (buffer h1 c),
        invert 0%N true h0 = (Return 0%N, h2) & symmetric (buffer h2 0)].
Proof.
have [] // := @invert_keeps_symmetric Q h0 0%N.
- by move=> m _; exact: diag_unit.
- exact: diag_symmetric.
by move=> c [h1 [h2 [run1 [sym_1 _] run2 [sym_2 _]]]]; exists c, h1, h2.
Defined.

Lemma repr_determines_witness :
  (__repr__ 0%N h0).1 = Return "<MatrixArray rank:2 length:2>"%string /\
  rank (instance h0 0) = rank (instance heap_half 0) /\
  length (instance h0 0) = length (instance heap_half 0).
Proof.
split; first by [].
exact: (@repr_determines Q h0 heap_half 0%N 0%N).2 (erefl _).
Defined.

Lemma getitem_of_arith_witness :
  exists (c : ref) (h1 : heap Q) (xs ys : seq Q),
    [/\ __add__ 0%N (OfMatrixArray Q 1) h0 = (Return c, h1),
        __getitem__ 0%N (1, 1)%N h0 = (Return xs, h0),
        __getitem__ 1%N (1, 1)%N h0 = (Return ys, h0)
      & __getitem__ c (1, 1)%N h1 =
          (Return [seq p.1 + p.2 | p <- zip xs ys], h1)].
Proof.
exact: (@getitem_of_arith Q h0 0%N 1%N Add 1%N 1%N 2%N 2%N (erefl _)
          (erefl _) (erefl _) isT isT).
Defined.

End Runs.
